(** * Anti-flooding agent buffer

    A shallow embedding of [src/client-agent/buffer.c]: the circular buffer
    of owned message strings, its four-level state machine, the growth
    policy run inside [buffer_append], and the consumer's pop and
    notification steps of [dispatch_buffer].

    The C globals become the fields of one record, [globals], that every
    operation threads explicitly.  Each public operation runs under the
    buffer mutex, so it is modelled as one atomic function on [globals].
    What the environment decides (the clock, whether an allocation
    succeeds, the configured values) is an explicit argument.

    A second part embeds the FreeBSD users provider,
    [src/data_provider/src/extended_sources/users/src/users_freebsd.cpp]. *)

From Stdlib Require Import ZArith Bool Lia Ascii String.
From stdpp Require Import base list strings gmap.

Local Open Scope Z_scope.

(** ** Machine integers

    [unsigned int] is 32 bits wide; arithmetic on it wraps around.  [int]
    is the signed type of the two indices. *)

Definition uint (z : Z) : Z := z mod 4294967296.

Definition sint (z : Z) : Z := (z + 2147483648) mod 4294967296 - 2147483648.

(** ** Outcomes of an operation

    [Ret] is a normal return.  [Waits] is the consumer blocked on the
    not-empty condition, [Exits] is the fatal [exit(1)] of [buffer_init],
    [Undefined] is C undefined behaviour (a null or out-of-range slot
    access, a remainder by zero). *)

Inductive outcome (A : Type) : Type :=
  | Ret (a : A)
  | Waits
  | Exits
  | Undefined.

Arguments Ret {A} a.
Arguments Waits {A}.
Arguments Exits {A}.
Arguments Undefined {A}.

(** Sequencing stops at the first outcome that is not a return; stdpp's
    [x ← m; k] notation is used for it. *)
#[global] Instance outcome_bind : MBind outcome := fun A B k m =>
  match m with
  | Ret a => k a
  | Waits => Waits
  | Exits => Exits
  | Undefined => Undefined
  end.

(** ** Data model *)

(** The values of the [state] variable. *)
Inductive level : Type := NORMAL | WARNING | FULL | FLOOD.

(** The bit-field struct [buff]. *)
Record buff_flags : Type := mkBuff {
  buff_full : bool;
  buff_warn : bool;
  buff_flood : bool;
  buff_normal : bool
}.

(** One slot of the pointer array holds an owned string or NULL, the
    latter shown as [None]. *)
Abbreviation slot := (option string).

(** The file-level variables of buffer.c.  [buffer] is [None] while the
    array pointer is NULL.  [agent_msg_count] is the counter of the agent
    state module that [w_agentd_state_update] increments. *)
Record globals : Type := mkGlobals {
  i : Z;
  j : Z;
  message_count : Z;
  state : level;
  warn_level : Z;
  normal_level : Z;
  tolerance : Z;
  buff : buff_flags;
  buffer : option (list slot);
  current_capacity : Z;
  start : Z;
  end_ : Z;
  agent_msg_count : Z
}.

Definition set_i (v : Z) (s : globals) : globals :=
  mkGlobals v (j s) (message_count s) (state s) (warn_level s) (normal_level s) (tolerance s) (buff s) (buffer s) (current_capacity s) (start s) (end_ s) (agent_msg_count s).

Definition set_j (v : Z) (s : globals) : globals :=
  mkGlobals (i s) v (message_count s) (state s) (warn_level s) (normal_level s) (tolerance s) (buff s) (buffer s) (current_capacity s) (start s) (end_ s) (agent_msg_count s).

Definition set_message_count (v : Z) (s : globals) : globals :=
  mkGlobals (i s) (j s) v (state s) (warn_level s) (normal_level s) (tolerance s) (buff s) (buffer s) (current_capacity s) (start s) (end_ s) (agent_msg_count s).

Definition set_state (v : level) (s : globals) : globals :=
  mkGlobals (i s) (j s) (message_count s) v (warn_level s) (normal_level s) (tolerance s) (buff s) (buffer s) (current_capacity s) (start s) (end_ s) (agent_msg_count s).

Definition set_warn_level (v : Z) (s : globals) : globals :=
  mkGlobals (i s) (j s) (message_count s) (state s) v (normal_level s) (tolerance s) (buff s) (buffer s) (current_capacity s) (start s) (end_ s) (agent_msg_count s).

Definition set_normal_level (v : Z) (s : globals) : globals :=
  mkGlobals (i s) (j s) (message_count s) (state s) (warn_level s) v (tolerance s) (buff s) (buffer s) (current_capacity s) (start s) (end_ s) (agent_msg_count s).

Definition set_tolerance (v : Z) (s : globals) : globals :=
  mkGlobals (i s) (j s) (message_count s) (state s) (warn_level s) (normal_level s) v (buff s) (buffer s) (current_capacity s) (start s) (end_ s) (agent_msg_count s).

Definition set_buff (v : buff_flags) (s : globals) : globals :=
  mkGlobals (i s) (j s) (message_count s) (state s) (warn_level s) (normal_level s) (tolerance s) v (buffer s) (current_capacity s) (start s) (end_ s) (agent_msg_count s).

Definition set_buffer (v : option (list slot)) (s : globals) : globals :=
  mkGlobals (i s) (j s) (message_count s) (state s) (warn_level s) (normal_level s) (tolerance s) (buff s) v (current_capacity s) (start s) (end_ s) (agent_msg_count s).

Definition set_current_capacity (v : Z) (s : globals) : globals :=
  mkGlobals (i s) (j s) (message_count s) (state s) (warn_level s) (normal_level s) (tolerance s) (buff s) (buffer s) v (start s) (end_ s) (agent_msg_count s).

Definition set_start (v : Z) (s : globals) : globals :=
  mkGlobals (i s) (j s) (message_count s) (state s) (warn_level s) (normal_level s) (tolerance s) (buff s) (buffer s) (current_capacity s) v (end_ s) (agent_msg_count s).

Definition set_end (v : Z) (s : globals) : globals :=
  mkGlobals (i s) (j s) (message_count s) (state s) (warn_level s) (normal_level s) (tolerance s) (buff s) (buffer s) (current_capacity s) (start s) v (agent_msg_count s).

Definition set_agent_msg_count (v : Z) (s : globals) : globals :=
  mkGlobals (i s) (j s) (message_count s) (state s) (warn_level s) (normal_level s) (tolerance s) (buff s) (buffer s) (current_capacity s) (start s) (end_ s) v.

(** Assignments to the single bits of [buff]. *)
Definition set_full (v : bool) (s : globals) : globals :=
  set_buff (mkBuff v (buff_warn (buff s)) (buff_flood (buff s)) (buff_normal (buff s))) s.

Definition set_warn (v : bool) (s : globals) : globals :=
  set_buff (mkBuff (buff_full (buff s)) v (buff_flood (buff s)) (buff_normal (buff s))) s.

Definition set_flood (v : bool) (s : globals) : globals :=
  set_buff (mkBuff (buff_full (buff s)) (buff_warn (buff s)) v (buff_normal (buff s))) s.

Definition set_normal (v : bool) (s : globals) : globals :=
  set_buff (mkBuff (buff_full (buff s)) (buff_warn (buff s)) (buff_flood (buff s)) v) s.

(** The values of the globals when the program starts: static storage is
    zero-initialised, [buffer] is NULL and [state] is [NORMAL]. *)
Definition boot : globals :=
  mkGlobals 0 0 0 NORMAL 0 0 0 (mkBuff false false false false) None 0 0 0 0.

(** ** Helper predicates (buffer.c, lines 72-125) *)

(** [full]: [capacity - 1] is computed in [unsigned int]. *)
Definition full (count capacity : Z) : bool :=
  count =? uint (capacity - 1).

Definition empty (count : Z) : bool :=
  count =? 0.

(** The fill percentage [count * 100 / (capacity - 1)] in [unsigned int];
    only evaluated when [capacity > 1]. *)
Definition fill (count capacity : Z) : Z :=
  uint (count * 100) / (capacity - 1).

Definition warn (s : globals) (count capacity : Z) : bool :=
  if capacity <=? 1 then false else warn_level s <=? fill count capacity.

Definition nowarn (s : globals) (count capacity : Z) : bool :=
  if capacity <=? 1 then true else fill count capacity <? warn_level s.

Definition normal (s : globals) (count capacity : Z) : bool :=
  if capacity <=? 1 then true else fill count capacity <=? normal_level s.

(** [forward]: the [int] index is converted to [unsigned int] for the
    remainder, and the result back to [int].  A zero capacity is a
    remainder by zero. *)
Definition forward (idx capacity : Z) : option Z :=
  if capacity =? 0 then None else Some (sint (uint (idx + 1) mod capacity)).

(** ** Allocation *)

(** [realloc(old, n * sizeof(char * ))] when it succeeds: the first
    [min(n, old length)] pointers are kept.  The added cells are
    indeterminate in C; [resize_internal_buffer] overwrites them with NULL
    before anything reads them, so they are shown as [None] here. *)
Definition realloc (old : option (list slot)) (n : Z) : list slot :=
  let l := default [] old in
  take (Z.to_nat n) l ++ replicate (Z.to_nat n - length l)%nat None.

(** The loop [for (k = from; k < to; k++) buffer[k] = NULL]; with
    [from = 0] it is also the loop that frees every string. *)
Definition null_fill (from to : Z) (b : list slot) : list slot :=
  foldl (fun acc k => <[k:=None]> acc) b
        (seq (Z.to_nat from) (Z.to_nat to - Z.to_nat from)%nat).

(** ** Environment of a call *)

(** What the surroundings decide during one [buffer_append]: the value
    of [time(NULL)], and whether [realloc] and [strdup] succeed. *)
Record append_env : Type := mkEnv {
  now : Z;
  realloc_ok : bool;
  strdup_ok : bool
}.

(** The configuration [buffer_init] reads: [agt->buflength] and the three
    internal options. *)
Record agent_conf : Type := mkConf {
  buflength : Z;
  conf_warn_level : Z;
  conf_normal_level : Z;
  conf_tolerance : Z
}.

(** Calls made by [buffer_append] that a caller can observe. *)
Inductive call : Type :=
  | Call_resize_internal_buffer (new_capacity : Z)
  | Call_w_cond_signal.

(** The control messages the dispatcher sends to the manager. *)
Inductive notification : Type :=
  | Notify_warn
  | Notify_full
  | Notify_flood
  | Notify_normal.

(** Modelled from the spec: [getDefine_Int] is declared outside
    buffer.c.  It yields the configured value when that lies within the
    given bounds; an invalid configuration is fatal. *)
Definition getDefine_Int (configured lo hi : Z) : outcome Z :=
  if (lo <=? configured) && (configured <=? hi) then Ret configured else Exits.

(** The only request [buffer_append] sends to the agent state module. *)
Inductive w_agentd_state_update_t : Type := INCREMENT_MSG_COUNT.

(** Modelled from the spec: [w_agentd_state_update] is defined outside
    buffer.c; [INCREMENT_MSG_COUNT] increments the monotonic message
    counter of the agent state module by one. *)
Definition w_agentd_state_update (t : w_agentd_state_update_t) (s : globals) : globals :=
  match t with
  | INCREMENT_MSG_COUNT => set_agent_msg_count (agent_msg_count s + 1) s
  end.

Section Buffer.

(** The two capacity bounds are macros of a header that is not part of
    the sources at hand; the operations are parametric in them.  They are
    compared with and assigned to [unsigned int] variables and are taken
    as values of that type. *)
Variables MIN_BUFFER_CAPACITY MAX_BUFFER_CAPACITY : Z.

(** ** [resize_internal_buffer] (lines 134-162)

    Returns the C return value and the globals after the call.  The
    indices [i], [j] and [message_count] are not touched. *)
Definition resize_internal_buffer (alloc_ok : bool) (new_capacity : Z) (s : globals) : Z * globals :=
  if (new_capacity =? 0) || (MAX_BUFFER_CAPACITY <? new_capacity) then (-1, s)
  else if negb alloc_ok then (-1, s)
  else
    let b := realloc (buffer s) new_capacity in
    let b := if current_capacity s <? new_capacity
             then null_fill (current_capacity s) new_capacity b
             else b in
    (0, set_current_capacity new_capacity (set_buffer (Some b) s)).

(** ** [buffer_init] (lines 174-232) *)
Definition buffer_init (alloc_ok : bool) (conf : agent_conf) (s : globals) : outcome globals :=
  let desired_capacity := uint (buflength conf + 1) in
  s ← (if bool_decide (buffer s = None) || negb (desired_capacity =? current_capacity s)
       then
         let s := match buffer s with
                  | Some b => set_buffer (Some (null_fill 0 (current_capacity s) b)) s
                  | None => s
                  end in
         let r := resize_internal_buffer alloc_ok desired_capacity s in
         if fst r =? 0 then Ret (snd r) else Exits
       else Ret s);
  let s := set_i 0 s in
  let s := set_j 0 s in
  let s := set_message_count 0 s in
  let s := set_state NORMAL s in
  let s := set_full false s in
  let s := set_warn false s in
  let s := set_flood false s in
  let s := set_normal false s in
  w ← getDefine_Int (conf_warn_level conf) 1 100;
  let s := set_warn_level w s in
  n ← getDefine_Int (conf_normal_level conf) 0 (warn_level s - 1);
  let s := set_normal_level n s in
  t ← getDefine_Int (conf_tolerance conf) 0 600;
  Ret (set_tolerance t s).

(** ** [buffer_is_full], [buffer_is_empty] (lines 234-247) *)
Definition buffer_is_full (s : globals) : Z :=
  Z.b2z (full (message_count s) (current_capacity s)).

Definition buffer_is_empty (s : globals) : Z :=
  Z.b2z (empty (message_count s)).

(** ** [buffer_append] (lines 250-377) *)

(** The capacity requested by the growth block (lines 258-264): twice the
    current one in [unsigned int], raised to the minimum, cut at the
    maximum. *)
Definition new_desired_capacity (s : globals) : Z :=
  let n := uint (current_capacity s * 2) in
  let n := if n <? MIN_BUFFER_CAPACITY then MIN_BUFFER_CAPACITY else n in
  if MAX_BUFFER_CAPACITY <? n then MAX_BUFFER_CAPACITY else n.

(** The growth block (lines 256-284).  A failed resize is only logged. *)
Definition append_resize (e : append_env) (s : globals) : globals * list call :=
  if match state s with
     | WARNING => true
     | NORMAL => warn s (message_count s) (current_capacity s)
     | _ => false
     end
  then
    let n := new_desired_capacity s in
    if current_capacity s <? n
    then (snd (resize_internal_buffer (realloc_ok e) n s), [Call_resize_internal_buffer n])
    else (s, [])
  else (s, []).

(** The [switch (state)] of the producer (lines 287-345).  [end - start]
    is a [time_t] difference; with a 64-bit [time_t] the [unsigned int]
    [tolerance] is converted to it, so the comparison is the signed one. *)
Definition append_level (e : append_env) (s : globals) : globals :=
  match state s with
  | NORMAL =>
      if full (message_count s) (current_capacity s)
      then set_start (now e) (set_state FULL (set_full true s))
      else if warn s (message_count s) (current_capacity s)
      then set_warn true (set_state WARNING s)
      else s
  | WARNING =>
      if full (message_count s) (current_capacity s)
      then set_start (now e) (set_state FULL (set_full true s))
      else if normal s (message_count s) (current_capacity s)
      then set_normal true (set_warn false (set_state NORMAL s))
      else s
  | FULL =>
      let s := set_end (now e) s in
      if tolerance s <=? end_ s - start s
      then set_flood true (set_state FLOOD s)
      else if normal s (message_count s) (current_capacity s)
      then set_start 0 (set_normal true (set_full false (set_state NORMAL s)))
      else if nowarn s (message_count s) (current_capacity s)
              && negb (full (message_count s) (current_capacity s))
      then set_warn true (set_full false (set_state WARNING s))
      else s
  | FLOOD =>
      if normal s (message_count s) (current_capacity s)
      then set_start 0 (set_normal true (set_full false (set_flood false (set_state NORMAL s))))
      else if nowarn s (message_count s) (current_capacity s)
              && negb (full (message_count s) (current_capacity s))
      then set_warn true (set_full false (set_flood false (set_state WARNING s)))
      else s
  end.

(** The drop test and the store (lines 349-376).  The slot at [i] is
    released and set to NULL before [strdup]; when [strdup] fails the slot
    keeps NULL and the call returns -1. *)
Definition append_store (e : append_env) (msg : string) (s : globals) : outcome (Z * globals * list call) :=
  if full (message_count s) (current_capacity s) then Ret (-1, s, [])
  else
    match buffer s with
    | None => Undefined
    | Some b =>
        if (0 <=? i s) && (i s <? Z.of_nat (length b)) then
          let b := <[Z.to_nat (i s):=None]> b in
          if strdup_ok e then
            let b := <[Z.to_nat (i s):=Some msg]> b in
            match forward (i s) (current_capacity s) with
            | None => Undefined
            | Some i' =>
                Ret (0,
                     set_message_count (uint (message_count s + 1))
                       (set_i i' (set_buffer (Some b) s)),
                     [Call_w_cond_signal])
            end
          else Ret (-1, set_buffer (Some b) s, [])
        else Undefined
    end.

(** The whole call: the C return value, the globals afterwards, and the
    observable calls in the order they were made. *)
Definition buffer_append (e : append_env) (msg : string) (s : globals) : outcome (Z * globals * list call) :=
  let (s, grown) := append_resize e s in
  let s := append_level e s in
  let s := w_agentd_state_update INCREMENT_MSG_COUNT s in
  r ← append_store e msg s;
  Ret (fst (fst r), snd (fst r), grown ++ snd r).

(** ** [dispatch_buffer] (lines 383-507)

    One iteration of the consumer loop has a part under the mutex, from
    the wait to the removal of the tail message ([dispatch_pop]), and a
    part outside it that reports and clears the flags
    ([dispatch_notify]). *)

(** The [switch (state)] of the consumer (lines 407-449). *)
Definition dispatch_level (s : globals) : globals :=
  match state s with
  | NORMAL => s
  | WARNING =>
      if normal s (message_count s) (current_capacity s)
      then set_warn false (set_normal true (set_state NORMAL s))
      else s
  | FULL =>
      if normal s (message_count s) (current_capacity s)
      then set_start 0 (set_warn false (set_full false (set_normal true (set_state NORMAL s))))
      else if nowarn s (message_count s) (current_capacity s)
      then set_warn true (set_full false (set_state WARNING s))
      else s
  | FLOOD =>
      if normal s (message_count s) (current_capacity s)
      then set_start 0 (set_warn false (set_full false (set_flood false (set_normal true (set_state NORMAL s)))))
      else if nowarn s (message_count s) (current_capacity s)
      then set_warn true (set_full false (set_flood false (set_state WARNING s)))
      else s
  end.

(** Lines 398-457: wait while empty, run the consumer's switch, take the
    pointer at [j], clear the slot, advance [j], decrement the count. *)
Definition dispatch_pop (s : globals) : outcome (slot * globals) :=
  if empty (message_count s) then Waits
  else
    let s := dispatch_level s in
    match buffer s with
    | None => Undefined
    | Some b =>
        if (0 <=? j s) && (j s <? Z.of_nat (length b)) then
          let msg_output := default None (b !! Z.to_nat (j s)) in
          let b := <[Z.to_nat (j s):=None]> b in
          match forward (j s) (current_capacity s) with
          | None => Undefined
          | Some j' =>
              Ret (msg_output,
                   set_message_count (uint (message_count s - 1))
                     (set_j j' (set_buffer (Some b) s)))
          end
        else Undefined
    end.

(** Lines 461-488: each set flag is cleared and its notification sent, in
    the order warn, full, flood, normal.  The four tests run one after
    the other without an append in between. *)
Definition dispatch_notify (s : globals) : list notification * globals :=
  let '(out, s) := (if buff_warn (buff s) then ([Notify_warn], set_warn false s) else ([], s)) in
  let '(out, s) := (if buff_full (buff s) then (out ++ [Notify_full], set_full false s) else (out, s)) in
  let '(out, s) := (if buff_flood (buff s) then (out ++ [Notify_flood], set_flood false s) else (out, s)) in
  if buff_normal (buff s) then (out ++ [Notify_normal], set_normal false s) else (out, s).

(** ** [buffer_destroy] (lines 521-555) *)
Definition buffer_destroy (s : globals) : globals :=
  let s := set_buffer None s in
  let s := set_current_capacity 0 s in
  let s := set_i 0 s in
  let s := set_j 0 s in
  let s := set_message_count 0 s in
  let s := set_state NORMAL s in
  let s := set_full false s in
  let s := set_warn false s in
  let s := set_flood false s in
  let s := set_normal false s in
  let s := set_start 0 s in
  set_end 0 s.

(** ** [w_agentd_get_buffer_lenght] (lines 560-572) *)
Definition w_agentd_get_buffer_lenght (s : globals) : Z :=
  if 0 <? current_capacity s then sint (message_count s) else -1.

(** ** Runs of public operations *)

Inductive op : Type :=
  | Op_init (alloc_ok : bool) (conf : agent_conf)
  | Op_append (e : append_env) (msg : string)
  | Op_pop
  | Op_notify
  | Op_destroy.

Definition step (o : op) (s : globals) : outcome globals :=
  match o with
  | Op_init a c => buffer_init a c s
  | Op_append e m => r ← buffer_append e m s; Ret (snd (fst r))
  | Op_pop => r ← dispatch_pop s; Ret (snd r)
  | Op_notify => Ret (snd (dispatch_notify s))
  | Op_destroy => Ret (buffer_destroy s)
  end.

Fixpoint run (ops : list op) (s : globals) : outcome globals :=
  match ops with
  | [] => Ret s
  | o :: ops => s ← step o s; run ops s
  end.

(** [n] consecutive pop steps, with the messages they hand out. *)
Fixpoint pop_n (n : nat) (s : globals) : outcome (list slot * globals) :=
  match n with
  | O => Ret ([], s)
  | S n =>
      r ← dispatch_pop s;
      rs ← pop_n n (snd r);
      Ret (fst r :: fst rs, snd rs)
  end.

End Buffer.

(** ** Fixtures of the concrete scenarios *)

(** Usable length 4, warn at 75 percent, normal at 25 percent, tolerance
    of 10 seconds. *)
Definition conf4 : agent_conf := mkConf 4 75 25 10.

(** A call at time [t] during which every allocation succeeds. *)
Definition ok_at (t : Z) : append_env := mkEnv t true true.

(** Four messages appended to the fresh buffer of [conf4]. *)
Definition fill4 : list op :=
  [Op_init true conf4; Op_append (ok_at 0) "a"; Op_append (ok_at 0) "b";
   Op_append (ok_at 0) "c"; Op_append (ok_at 0) "d"].

(** The globals after the first three appends of [fill4]; no growth has
    been tried yet, so they do not depend on the capacity bounds. *)
Definition filled3 : globals :=
  Eval vm_compute in
    match run 2 5 (take 4 fill4) boot with Ret s => s | _ => boot end.

(** The globals after [fill4] when the ring cannot grow
    ([MAX_BUFFER_CAPACITY] is 5, the initial capacity). *)
Definition warned4 : globals :=
  Eval vm_compute in
    match run 2 5 fill4 boot with Ret s => s | _ => boot end.

(** [fill4], a fifth append at time 100 that finds the ring full, and one
    complete consumer iteration: level Full, three messages left. *)
Definition full_then_pop : list op :=
  fill4 ++ [Op_append (ok_at 100) "e"; Op_pop; Op_notify].

Definition full3 : globals :=
  Eval vm_compute in
    match run 2 5 full_then_pop boot with Ret s => s | _ => boot end.

(** One more consumer iteration: level still Full, two messages left. *)
Definition full2 : globals :=
  Eval vm_compute in
    match run 2 5 [Op_pop; Op_notify] full3 with Ret s => s | _ => boot end.

(** A ring whose live region starts at cell 1 and does not wrap: one
    message is appended and consumed, then three more are appended.
    [MAX_BUFFER_CAPACITY] is 16. *)
Definition shift3 : list op :=
  [Op_init true conf4;
   Op_append (ok_at 0) "a"; Op_pop; Op_notify;
   Op_append (ok_at 0) "b"; Op_append (ok_at 0) "c"; Op_append (ok_at 0) "d"].

Definition shifted3 : globals :=
  Eval vm_compute in
    match run 2 16 shift3 boot with Ret s => s | _ => boot end.

(** A ring whose live region wraps around the end of the array: three
    messages are appended and consumed one at a time, then three more
    are appended.  [MAX_BUFFER_CAPACITY] is 16. *)
Definition wrap3 : list op :=
  [Op_init true conf4;
   Op_append (ok_at 0) "a"; Op_pop; Op_notify;
   Op_append (ok_at 0) "b"; Op_pop; Op_notify;
   Op_append (ok_at 0) "c"; Op_pop; Op_notify;
   Op_append (ok_at 0) "d"; Op_append (ok_at 0) "e"; Op_append (ok_at 0) "f"].

Definition wrapped3 : globals :=
  Eval vm_compute in
    match run 2 16 wrap3 boot with Ret s => s | _ => boot end.

(** ** Specification predicates *)

(** The ring invariant of the data model: one slot stays free, and the
    head is [count] places after the tail. *)
Definition ring_inv (s : globals) : Prop :=
  0 <= message_count s <= current_capacity s - 1 /\
  (j s + message_count s) mod current_capacity s = i s.

(** What a step under the mutex may do to the edge flags: [normal] is
    never cleared, and each other flag is cleared only by a transition
    that leaves its level. *)
Definition flags_kept (s s' : globals) : Prop :=
  (buff_normal (buff s) = true -> buff_normal (buff s') = true) /\
  (buff_warn (buff s) = true -> buff_warn (buff s') = false ->
     state s <> NORMAL /\ state s' = NORMAL) /\
  (buff_full (buff s) = true -> buff_full (buff s') = false ->
     (state s = FULL \/ state s = FLOOD) /\ (state s' = NORMAL \/ state s' = WARNING)) /\
  (buff_flood (buff s) = true -> buff_flood (buff s') = false ->
     state s = FLOOD /\ (state s' = NORMAL \/ state s' = WARNING)) /\
  (state s' = state s ->
     (buff_warn (buff s) = true -> buff_warn (buff s') = true) /\
     (buff_full (buff s) = true -> buff_full (buff s') = true) /\
     (buff_flood (buff s) = true -> buff_flood (buff s') = true)).

(** The capacity is 0 or lies between 1 and the maximum. *)
Definition capacity_bounded (hi : Z) (s : globals) : Prop :=
  current_capacity s = 0 \/ 0 < current_capacity s <= hi.

(** The operations between one [buffer_init] and the next
    [buffer_init] or [buffer_destroy]. *)
Definition in_lifetime (o : op) : bool :=
  match o with
  | Op_append _ _ | Op_pop | Op_notify => true
  | Op_init _ _ | Op_destroy => false
  end.

(** ** Views of the state used by the further properties *)

(** A well-formed state.  Without storage everything is zero and the
    level is Normal.  With storage the array has [current_capacity]
    cells, the capacity is positive and within the maximum, both indices
    point into the array, at least one cell is free, and the three
    configured levels lie within the bounds [buffer_init] asked for. *)
Definition sane (hi : Z) (s : globals) : Prop :=
  match buffer s with
  | None =>
      current_capacity s = 0 /\ message_count s = 0 /\
      i s = 0 /\ j s = 0 /\ state s = NORMAL
  | Some b =>
      Z.of_nat (length b) = current_capacity s /\
      0 < current_capacity s <= hi /\
      0 <= i s < current_capacity s /\
      0 <= j s < current_capacity s /\
      0 <= message_count s <= current_capacity s - 1 /\
      1 <= warn_level s <= 100 /\
      0 <= normal_level s < warn_level s /\
      0 <= tolerance s <= 600
  end.

(** The cell that the [k]-th pop from now would read, in an array [b] of
    [cap] cells with tail index [tail]. *)
Definition slot_at (b : list slot) (cap tail : Z) (k : nat) : slot :=
  default None (b !! Z.to_nat ((tail + Z.of_nat k) mod cap)).

(** The next [n] cells in pop order. *)
Definition window (b : list slot) (cap tail : Z) (n : nat) : list slot :=
  map (slot_at b cap tail) (seq 0 n).

(** The queue the ring stands for: the [message_count] cells from the
    tail on, wrapping around the end of the array. *)
Definition live (s : globals) : list slot :=
  match buffer s with
  | None => []
  | Some b => window b (current_capacity s) (j s) (Z.to_nat (message_count s))
  end.

(** A ring with storage that satisfies the ring invariant, with indices
    that fit the signed index type. *)
Definition ring_wf (s : globals) : Prop :=
  exists b,
    buffer s = Some b /\
    Z.of_nat (length b) = current_capacity s /\
    current_capacity s < 2147483648 /\
    0 <= j s < current_capacity s /\
    ring_inv s.

(** A run of producer and consumer steps that also records what went in
    and what came out: the messages handed out by the pop steps, and the
    messages of the appends that returned 0, both in the order of the
    calls. *)
Fixpoint run_io (lo hi : Z) (ops : list op) (s : globals)
  : outcome (list slot * list string * globals) :=
  match ops with
  | [] => Ret ([], [], s)
  | Op_append e msg :: ops =>
      r ← buffer_append lo hi e msg s;
      t ← run_io lo hi ops (snd (fst r));
      Ret (fst (fst t),
           (if fst (fst r) =? 0 then [msg] else []) ++ snd (fst t),
           snd t)
  | Op_pop :: ops =>
      r ← dispatch_pop s;
      t ← run_io lo hi ops (snd r);
      Ret (fst r :: fst (fst t), snd (fst t), snd t)
  | o :: ops =>
      s ← step lo hi o s;
      run_io lo hi ops s
  end.


(** The number of [buffer_append] calls in a sequence of operations. *)
Fixpoint appends_in (ops : list op) : Z :=
  match ops with
  | [] => 0
  | Op_append _ _ :: ops => 1 + appends_in ops
  | _ :: ops => appends_in ops
  end.

(** [n] calls of [forward] on the same index variable. *)
Fixpoint forward_n (n : nat) (idx capacity : Z) : option Z :=
  match n with
  | O => Some idx
  | S n => idx' ← forward idx capacity; forward_n n idx' capacity
  end.

(** * The users provider

    A shallow embedding of
    [src/data_provider/src/extended_sources/users/src/users_freebsd.cpp]:
    the classification of a password field by [get_password_hash_algorithm],
    the JSON object built for one account by [genUserJson], and the walk
    over the password database of [collectUsers].

    What the system decides is an explicit argument: the user id of the
    process, whether [strdup] succeeds, and the answers of the successive
    [getpwent_r] calls. *)

(** ** C strings

    A [const char *] is shown as the bytes of memory that start at the
    pointer.  The C string it denotes ends before the first NUL byte;
    [c_str] cuts it there.  [strdup] and the construction of a
    [std::string] from a [char *] copy exactly that text. *)

Definition NUL : ascii := "000"%char.

Fixpoint c_str (mem : string) : string :=
  match mem with
  | EmptyString => EmptyString
  | String c rest => if Ascii.eqb c NUL then EmptyString else String c (c_str rest)
  end.

(** [p[k]] for a pointer [p] to a C string of text [text]: a character of
    the text, the terminating NUL right after it, and undefined behaviour
    beyond. *)
Definition char_at (text : string) (k : nat) : outcome ascii :=
  match String.get k text with
  | Some c => Ret c
  | None => if (k =? String.length text)%nat then Ret NUL else Undefined
  end.

(** [strstr(haystack, needle)]: the offset of the first occurrence, or
    [None] for a null result. *)
Definition strstr (haystack needle : string) : option nat :=
  String.index 0 needle haystack.

(** The text seen from [p + n], for [n] within the text. *)
Fixpoint advance (n : nat) (text : string) : string :=
  match n, text with
  | O, _ => text
  | S n, String _ rest => advance n rest
  | S _, EmptyString => EmptyString
  end.

(** ** [get_password_hash_algorithm] (lines 121-207)

    [pptr_aux] is an offset into the copy [pptr].  The result is a pointer
    to a string literal or NULL. *)

Definition locked_str : string := "*LOCKED*".

(** Lines 147-206: the classification of the text at [pptr_aux]. *)
Definition hash_algorithm_at (pptr : string) (pptr_aux : nat) : outcome (option string) :=
  c0 ← char_at pptr pptr_aux;
  auth_locked ← (if Ascii.eqb c0 "*"%char
                 then c1 ← char_at pptr (pptr_aux + 1)%nat; Ret (Ascii.eqb c1 NUL)
                 else Ret false);
  if auth_locked : bool then Ret None
  else if Ascii.eqb c0 NUL then Ret None
  else if Ascii.eqb c0 "_"%char then Ret (Some "DES-Extended"%string)
  else if Ascii.eqb c0 "$"%char then
    c1 ← char_at pptr (pptr_aux + 1)%nat;
    if Ascii.eqb c1 NUL then Ret None
    else
      let hash_algorithm :=
        if Ascii.eqb c1 "1"%char then Some "MD5"%string
        else if Ascii.eqb c1 "2"%char then Some "Blowfish"%string
        else if Ascii.eqb c1 "3"%char then Some "NT-Hash"%string
        else if Ascii.eqb c1 "5"%char then Some "SHA-256"%string
        else if Ascii.eqb c1 "6"%char then Some "SHA-512"%string
        else None in
      c2 ← char_at pptr (pptr_aux + 2)%nat;
      if negb (Ascii.eqb c2 "$"%char) then Ret None else Ret hash_algorithm
  else Ret (Some "DES"%string).

(** The whole function: the tests of lines 125-137, the copy, and the
    skip of lines 144-145, which adds the length of the marker when the
    marker occurs anywhere in the text. *)
Definition get_password_hash_algorithm (getuid : Z) (strdup_ok : bool)
    (pw_passwd : option string) : outcome (option string) :=
  if negb (getuid =? 0) then Ret None
  else
    match pw_passwd with
    | None => Undefined
    | Some mem =>
        c ← char_at (c_str mem) 0;
        if Ascii.eqb c NUL then Ret None
        else if negb strdup_ok then Ret None
        else
          let pptr := c_str mem in
          let pptr_aux := match strstr pptr locked_str with
                          | Some _ => String.length locked_str
                          | None => 0%nat
                          end in
          hash_algorithm_at pptr pptr_aux
    end.

(** The names [get_password_hash_algorithm] can return. *)
Definition hash_names : list string :=
  ["DES"; "DES-Extended"; "MD5"; "Blowfish"; "NT-Hash"; "SHA-256"; "SHA-512"]%string.

(** ** [genUserJson] (lines 50-78) *)

(** The fields of [struct passwd] the provider reads.  [pw_uid] and
    [pw_gid] are 32-bit unsigned, [pw_change] is a [time_t]. *)
Record passwd : Type := mkPasswd {
  pw_name : option string;
  pw_passwd : option string;
  pw_uid : Z;
  pw_gid : Z;
  pw_change : Z;
  pw_gecos : option string;
  pw_dir : option string;
  pw_shell : option string
}.

(** The JSON values the provider stores. *)
Inductive json_value : Type :=
  | J_unsigned (n : Z)
  | J_integer (n : Z)
  | J_string (s : string).

(** A JSON object: a map from keys to values. *)
Abbreviation json_object := (gmap string json_value).

(** [(p != nullptr) ? p : ""] stored as a JSON string. *)
Definition string_or_empty (p : option string) : json_value :=
  J_string (match p with Some mem => c_str mem | None => EmptyString end).

Definition genUserJson (getuid : Z) (strdup_ok : bool) (pwd : passwd)
    (include_remote : bool) : outcome json_object :=
  let r : json_object := ∅ in
  let r := <["uid" := J_unsigned (pw_uid pwd)]> r in
  let r := <["gid" := J_unsigned (pw_gid pwd)]> r in
  let r := <["uid_signed" := J_integer (sint (pw_uid pwd))]> r in
  let r := <["gid_signed" := J_integer (sint (pw_gid pwd))]> r in
  let r := <["username" := string_or_empty (pw_name pwd)]> r in
  let r := <["description" := string_or_empty (pw_gecos pwd)]> r in
  let r := <["directory" := string_or_empty (pw_dir pwd)]> r in
  let r := <["shell" := string_or_empty (pw_shell pwd)]> r in
  hash_alg ← get_password_hash_algorithm getuid strdup_ok (pw_passwd pwd);
  let r := <["hash_alg" := J_string (default EmptyString hash_alg)]> r in
  let r := <["pid_with_namespace" := J_string "0"]> r in
  let r := <["include_remote" := J_integer (Z.b2z include_remote)]> r in
  let r := <["expire" := J_integer (pw_change pwd)]> r in
  Ret r.

(** ** [collectUsers] (lines 80-119) *)

Definition MAX_GETPW_R_BUF_SIZE : Z := 16 * 1024.

(** Lines 85-90: the [long] result of [sysconf] converted to a [size_t]
    of [size_bits] bits, then cut at the maximum. *)
Definition getpw_r_bufsize (size_bits : Z) (sysconf : Z) : Z :=
  let bufsize := sysconf mod 2 ^ size_bits in
  if MAX_GETPW_R_BUF_SIZE <? bufsize then MAX_GETPW_R_BUF_SIZE else bufsize.

(** What one [getpwent_r] call answers: its return value and the entry
    [*result] points to, [None] for a null [*result]. *)
Abbreviation pw_answer := (Z * option passwd)%type.

(** The loop of lines 102-114 over the answers of the successive
    [getpwent_r] calls; after the last answer the database is at its end.
    [k] counts the calls made so far, and [strdup_ok k] tells whether the
    copy made while entry [k] is processed succeeds.  Building a
    [std::string] from a null [pw_name] for the search in [usernames] is
    undefined. *)
Fixpoint collectUsers_loop (getuid : Z) (strdup_ok : nat -> bool)
    (usernames : gset string) (uids : gset Z)
    (k : nat) (answers : list pw_answer) (results : list json_object)
    : outcome (list json_object) :=
  match answers with
  | [] => Ret results
  | (ret, pwd_results) :: answers =>
      if negb (ret =? 0) then Ret results
      else
        match pwd_results with
        | None => Ret results
        | Some pwd =>
            name_missing ← (if bool_decide (usernames ≠ ∅)
                            then match pw_name pwd with
                                 | None => Undefined
                                 | Some mem => Ret (bool_decide (c_str mem ∉ usernames))
                                 end
                            else Ret false);
            if name_missing : bool
            then collectUsers_loop getuid strdup_ok usernames uids (S k) answers results
            else if bool_decide (uids ≠ ∅) && bool_decide (pw_uid pwd ∉ uids)
            then collectUsers_loop getuid strdup_ok usernames uids (S k) answers results
            else
              r ← genUserJson getuid (strdup_ok k) pwd true;
              collectUsers_loop getuid strdup_ok usernames uids (S k) answers
                (results ++ [r])
        end
  end.

Definition collectUsers (getuid : Z) (strdup_ok : nat -> bool)
    (answers : list pw_answer) (usernames : gset string) (uids : gset Z)
    : outcome (list json_object) :=
  collectUsers_loop getuid strdup_ok usernames uids 0 answers [].

(** ** [collectWithConstraints], [collect] (lines 33-48) *)

Definition collectWithConstraints (getuid : Z) (strdup_ok : nat -> bool)
    (answers : list pw_answer) (usernames : gset string) (uids : gset Z)
    (include_remote : bool) : outcome (list json_object) :=
  collectUsers getuid strdup_ok answers usernames uids.

Definition collect (getuid : Z) (strdup_ok : nat -> bool)
    (answers : list pw_answer) (include_remote : bool) : outcome (list json_object) :=
  collectWithConstraints getuid strdup_ok answers ∅ ∅ include_remote.

(** ** What the database walk is compared with *)

(** The entries read before the first call that fails or answers with a
    null entry. *)
Fixpoint entries_read (answers : list pw_answer) : list passwd :=
  match answers with
  | (ret, Some pwd) :: answers => if ret =? 0 then pwd :: entries_read answers else []
  | _ => []
  end.

(** The text of the account name, empty for a null pointer. *)
Definition name_of (pwd : passwd) : string :=
  match pw_name pwd with Some mem => c_str mem | None => EmptyString end.

(** An entry passes when each filter that is not empty contains it. *)
Definition passes (usernames : gset string) (uids : gset Z) (pwd : passwd) : bool :=
  (bool_decide (usernames = ∅) || bool_decide (name_of pwd ∈ usernames))
  && (bool_decide (uids = ∅) || bool_decide (pw_uid pwd ∈ uids)).

(** A reported object stands for a database entry: it carries the name
    and the user id of the entry, and the [include_remote] value 1 that
    [collectUsers] passes to [genUserJson]. *)
Definition reports (r : json_object) (pwd : passwd) : Prop :=
  r !! "username"%string = Some (J_string (name_of pwd)) /\
  r !! "uid"%string = Some (J_unsigned (pw_uid pwd)) /\
  r !! "include_remote"%string = Some (J_integer 1).

(** What the walk needs of an entry to stay defined: a name when names
    are searched, a password field when the process is root. *)
Definition entry_readable (getuid : Z) (usernames : gset string) (pwd : passwd) : Prop :=
  (usernames <> ∅ -> pw_name pwd <> None) /\ (getuid = 0 -> pw_passwd pwd <> None).

(** ** Sample database *)

Definition alice : passwd :=
  mkPasswd (Some "alice") (Some "$6$salt$hash") 1001 1001 0
    (Some "Alice") (Some "/home/alice") (Some "/bin/sh").

Definition bob : passwd :=
  mkPasswd (Some "bob") (Some "*LOCKED*$1$salt$hash") 1002 1002 0
    (Some "Bob") (Some "/home/bob") (Some "/bin/sh").

Definition nobody : passwd :=
  mkPasswd (Some "nobody") (Some "*") 65534 65534 0
    (Some "Unprivileged user") (Some "/nonexistent") (Some "/usr/sbin/nologin").

(** Three entries, a failing call, and an entry the walk never reaches. *)
Definition sample_answers : list pw_answer :=
  [(0, Some alice); (0, Some bob); (0, Some nobody); (2, None); (0, Some alice)].

(** * Properties *)

(** Turns the boolean tests found in the hypotheses into propositions. *)
Ltac bool_hyps :=
  repeat match goal with
         | H : _ || _ = false |- _ => apply orb_false_elim in H as [? ?]
         | H : _ && _ = true |- _ => apply andb_prop in H as [? ?]
         | H : negb _ = false |- _ => apply negb_false_iff in H
         | H : (_ =? _) = true |- _ => apply Z.eqb_eq in H
         | H : (_ =? _) = false |- _ => apply Z.eqb_neq in H
         | H : (_ <? _) = true |- _ => apply Z.ltb_lt in H
         | H : (_ <? _) = false |- _ => apply Z.ltb_ge in H
         | H : (_ <=? _) = true |- _ => apply Z.leb_le in H
         | H : (_ <=? _) = false |- _ => apply Z.leb_gt in H
         end.

(** ** Returning steps of a run *)

Lemma step_append_inv lo hi e msg s s' :
  step lo hi (Op_append e msg) s = Ret s' ->
  exists r cs, buffer_append lo hi e msg s = Ret (r, s', cs).
Proof.
  simpl. destruct (buffer_append lo hi e msg s) as [[[r s1] cs]| | |];
    simpl; intros H; simplify_eq. eauto.
Qed.

Lemma step_pop_inv lo hi s s' :
  step lo hi Op_pop s = Ret s' -> exists m, dispatch_pop s = Ret (m, s').
Proof.
  simpl. destruct (dispatch_pop s) as [[m s1]| | |];
    simpl; intros H; simplify_eq. eauto.
Qed.

(** ** What each part of [buffer_append] leaves alone *)

Lemma resize_internal_buffer_frame hi a n s :
  let s' := snd (resize_internal_buffer hi a n s) in
  i s' = i s /\ j s' = j s /\ message_count s' = message_count s /\
  state s' = state s /\ buff s' = buff s /\ start s' = start s /\
  end_ s' = end_ s /\ agent_msg_count s' = agent_msg_count s /\
  warn_level s' = warn_level s /\ normal_level s' = normal_level s /\
  tolerance s' = tolerance s.
Proof.
  unfold resize_internal_buffer. repeat case_match; simpl; repeat split.
Qed.

Lemma append_resize_frame lo hi e s :
  let s' := fst (append_resize lo hi e s) in
  i s' = i s /\ j s' = j s /\ message_count s' = message_count s /\
  state s' = state s /\ buff s' = buff s /\ start s' = start s /\
  end_ s' = end_ s /\ agent_msg_count s' = agent_msg_count s /\
  warn_level s' = warn_level s /\ normal_level s' = normal_level s /\
  tolerance s' = tolerance s.
Proof.
  pose proof (resize_internal_buffer_frame hi (realloc_ok e)
                (new_desired_capacity lo hi s) s) as F.
  unfold append_resize.
  repeat case_match; simpl in *; intuition congruence.
Qed.

Lemma append_level_frame e s :
  let s' := append_level e s in
  i s' = i s /\ j s' = j s /\ message_count s' = message_count s /\
  buffer s' = buffer s /\ current_capacity s' = current_capacity s /\
  agent_msg_count s' = agent_msg_count s /\
  warn_level s' = warn_level s /\ normal_level s' = normal_level s /\
  tolerance s' = tolerance s.
Proof.
  unfold append_level. repeat case_match; simpl; repeat split.
Qed.

Lemma append_store_frame e msg s r s' cs :
  append_store e msg s = Ret (r, s', cs) ->
  j s' = j s /\ state s' = state s /\ buff s' = buff s /\ start s' = start s /\
  end_ s' = end_ s /\ current_capacity s' = current_capacity s /\
  agent_msg_count s' = agent_msg_count s /\
  warn_level s' = warn_level s /\ normal_level s' = normal_level s /\
  tolerance s' = tolerance s.
Proof.
  unfold append_store. intros H.
  repeat case_match; simplify_eq; simpl; repeat split.
Qed.

(** [buffer_append] as the composition of its three parts. *)
Lemma buffer_append_inv lo hi e msg s r s' cs :
  buffer_append lo hi e msg s = Ret (r, s', cs) ->
  exists cs',
    append_store e msg
      (w_agentd_state_update INCREMENT_MSG_COUNT
         (append_level e (fst (append_resize lo hi e s)))) = Ret (r, s', cs')
    /\ cs = snd (append_resize lo hi e s) ++ cs'.
Proof.
  unfold buffer_append. destruct (append_resize lo hi e s) as [s1 g]. simpl.
  destruct (append_store _ _ _) as [[[r0 s0] c0]| | |] eqn:E; simpl; try discriminate.
  intros [= <- <- <-]. eauto.
Qed.

(** The level a returning [buffer_append] ends in is the one its switch
    computed from the level it started in. *)
Lemma buffer_append_level lo hi e msg s r s' cs :
  buffer_append lo hi e msg s = Ret (r, s', cs) ->
  let s1 := append_level e (fst (append_resize lo hi e s)) in
  state s' = state s1 /\ buff s' = buff s1 /\ start s' = start s1 /\
  current_capacity s' = current_capacity s1.
Proof.
  intros H. apply buffer_append_inv in H as (cs' & H & _).
  apply append_store_frame in H. simpl in *. tauto.
Qed.

Lemma dispatch_level_frame s :
  let s' := dispatch_level s in
  i s' = i s /\ j s' = j s /\ message_count s' = message_count s /\
  buffer s' = buffer s /\ current_capacity s' = current_capacity s /\
  agent_msg_count s' = agent_msg_count s /\
  warn_level s' = warn_level s /\ normal_level s' = normal_level s /\
  tolerance s' = tolerance s.
Proof.
  unfold dispatch_level. repeat case_match; simpl; repeat split.
Qed.

(** The level a returning pop step ends in is the one the consumer's
    switch computed. *)
Lemma dispatch_pop_level s m s' :
  dispatch_pop s = Ret (m, s') ->
  state s' = state (dispatch_level s) /\ buff s' = buff (dispatch_level s) /\
  start s' = start (dispatch_level s) /\
  current_capacity s' = current_capacity s /\
  agent_msg_count s' = agent_msg_count s.
Proof.
  unfold dispatch_pop. intros H.
  destruct (dispatch_level_frame s) as (_ & _ & _ & _ & Hc & Ha & _).
  repeat case_match; simplify_eq; simpl; auto.
Qed.

Lemma dispatch_notify_frame s :
  let s' := snd (dispatch_notify s) in
  i s' = i s /\ j s' = j s /\ message_count s' = message_count s /\
  state s' = state s /\ buffer s' = buffer s /\
  current_capacity s' = current_capacity s /\ start s' = start s /\
  agent_msg_count s' = agent_msg_count s.
Proof.
  unfold dispatch_notify. repeat case_match; simplify_eq; simpl; repeat split.
Qed.

(** What a successful [buffer_init] establishes. *)
Lemma buffer_init_post hi a c s s' :
  buffer_init hi a c s = Ret s' ->
  i s' = 0 /\ j s' = 0 /\ message_count s' = 0 /\ state s' = NORMAL /\
  buff s' = mkBuff false false false false /\
  current_capacity s' = uint (buflength c + 1) /\
  (current_capacity s' = current_capacity s \/
   (current_capacity s' <> 0 /\ current_capacity s' <= hi)).
Proof.
  unfold buffer_init, getDefine_Int, resize_internal_buffer. intros H.
  repeat (case_match; simpl in *; simplify_eq);
    bool_hyps; simpl; repeat split; try lia; auto.
Qed.

(** ** The fixtures are reachable *)

Lemma filled3_reached :
  run 2 5 (take 4 fill4) boot = Ret filled3 /\
  run 2 16 (take 4 fill4) boot = Ret filled3.
Proof. split; reflexivity. Qed.

Lemma warned4_reached : run 2 5 fill4 boot = Ret warned4.
Proof. reflexivity. Qed.

Lemma full3_reached : run 2 5 full_then_pop boot = Ret full3.
Proof. reflexivity. Qed.

Lemma full2_reached : run 2 5 (full_then_pop ++ [Op_pop; Op_notify]) boot = Ret full2.
Proof. reflexivity. Qed.

Lemma shifted3_reached : run 2 16 shift3 boot = Ret shifted3.
Proof. reflexivity. Qed.

Lemma wrapped3_reached : run 2 16 wrap3 boot = Ret wrapped3.
Proof. reflexivity. Qed.

(** ** The fullness test on a buffer without storage *)

(** C10.  When the buffer is uninitialized or destroyed (capacity 0 and
    count 0), [buffer_is_full] returns 0 and [buffer_is_empty] returns 1:
    [capacity - 1] wraps to 2^32 - 1 in [unsigned int], so the fullness
    test compares the count with 4294967295 and reports not full. *)
Theorem uninitialized_buffer_reports_not_full (s : globals) :
  current_capacity s = 0 ->
  message_count s = 0 ->
  uint (current_capacity s - 1) = 2 ^ 32 - 1 /\
  full (message_count s) (current_capacity s) = (message_count s =? 2 ^ 32 - 1) /\
  buffer_is_full s = 0 /\
  buffer_is_empty s = 1.
Proof.
  intros Hc Hm. unfold buffer_is_full, buffer_is_empty, full, empty.
  rewrite Hc, Hm. repeat split.
Qed.

Lemma uninitialized_buffer_reports_not_full_witness :
  (buffer_is_full boot = 0 /\ buffer_is_empty boot = 1) /\
  (buffer_is_full (buffer_destroy warned4) = 0 /\
   buffer_is_empty (buffer_destroy warned4) = 1).
Proof.
  split.
  - exact (proj2 (proj2 (uninitialized_buffer_reports_not_full boot eq_refl eq_refl))).
  - exact (proj2 (proj2 (uninitialized_buffer_reports_not_full
                           (buffer_destroy warned4) eq_refl eq_refl))).
Defined.

(** [buffer_destroy] always leaves the buffer in that condition. *)
Lemma buffer_destroy_zero s :
  current_capacity (buffer_destroy s) = 0 /\ message_count (buffer_destroy s) = 0 /\
  buffer (buffer_destroy s) = None /\ state (buffer_destroy s) = NORMAL.
Proof. repeat split. Qed.

(** ** The message counter of the agent state module *)

(** C7, as the code has it.  Every call of [buffer_append] that returns
    increments the message counter by exactly one, whether it returns 0
    (stored) or -1 (dropped, or the copy could not be allocated): the
    counter is updated before the drop test. *)
Theorem append_counts_every_call lo hi e msg s r s' cs :
  buffer_append lo hi e msg s = Ret (r, s', cs) ->
  (r = 0 \/ r = -1) /\ agent_msg_count s' = agent_msg_count s + 1.
Proof.
  intros H. apply buffer_append_inv in H as (cs' & H & _).
  split.
  - unfold append_store in H. repeat case_match; simplify_eq; auto.
  - apply append_store_frame in H.
    destruct H as (_ & _ & _ & _ & _ & _ & -> & _). simpl.
    destruct (append_level_frame e (fst (append_resize lo hi e s)))
      as (_ & _ & _ & _ & _ & -> & _).
    destruct (append_resize_frame lo hi e s) as (_ & _ & _ & _ & _ & _ & _ & -> & _).
    reflexivity.
Qed.

Lemma append_counts_every_call_witness :
  exists s',
    buffer_append 2 5 (ok_at 7) "e" warned4 = Ret (-1, s', []) /\
    agent_msg_count s' = agent_msg_count warned4 + 1.
Proof.
  eexists. split.
  - vm_compute. reflexivity.
  - refine (proj2 (append_counts_every_call 2 5 (ok_at 7) "e" warned4 (-1) _ [] _)).
    vm_compute. reflexivity.
Defined.

(** C7 as stated fails: the fifth append of the scenario is dropped
    (returns -1) and the counter still goes from 4 to 5. *)
Lemma dropped_append_is_counted :
  match buffer_append 2 5 (ok_at 7) "e" warned4 with
  | Ret (r, s', _) =>
      r = -1 /\ agent_msg_count warned4 = 4 /\ agent_msg_count s' = 5
  | _ => False
  end.
Proof. vm_compute. repeat split. Qed.

(** ** Escalation to Flood *)

(** C4, as the code has it.  A public operation moves the level to Flood
    only when it is a [buffer_append] that starts in Full at a time [now]
    with [now - start >= tolerance].  Whether the ring is still full at
    that moment is not looked at. *)
Theorem flood_only_from_full_after_tolerance lo hi o s s' :
  step lo hi o s = Ret s' ->
  state s' = FLOOD ->
  state s <> FLOOD ->
  state s = FULL /\
  exists e msg, o = Op_append e msg /\ tolerance s <= now e - start s.
Proof.
  intros Hstep Hs' Hs. destruct o as [a c|e msg| | |]; simpl in Hstep.
  - apply buffer_init_post in Hstep. destruct Hstep as (_ & _ & _ & E & _). congruence.
  - apply step_append_inv in Hstep as (r & cs & E).
    apply buffer_append_level in E as (E & _). simpl in E.
    destruct (append_resize_frame lo hi e s)
      as (_ & _ & _ & Hst & _ & Hstart & _ & _ & _ & _ & Htol).
    revert E. unfold append_level. rewrite Hst.
    destruct (state s) eqn:St; try congruence;
      repeat case_match; simpl; intros E; try congruence.
    split; [reflexivity|]. exists e, msg. split; [reflexivity|].
    match goal with H : (_ <=? _) = true |- _ => apply Z.leb_le in H; simpl in H end.
    lia.
  - apply (step_pop_inv lo hi) in Hstep as (m & E).
    apply dispatch_pop_level in E as (E & _).
    revert E. unfold dispatch_level.
    destruct (state s) eqn:St; repeat case_match; simpl; congruence.
  - simplify_eq. destruct (dispatch_notify_frame s) as (_ & _ & _ & E & _). congruence.
  - simplify_eq; simpl in *; discriminate.
Qed.

Lemma flood_only_from_full_after_tolerance_witness :
  exists s',
    step 2 5 (Op_append (ok_at 110) "f") full3 = Ret s' /\
    state s' = FLOOD /\
    state full3 = FULL /\
    exists e msg, Op_append (ok_at 110) "f" = Op_append e msg /\
                  tolerance full3 <= now e - start full3.
Proof.
  eexists. split; [vm_compute; reflexivity|]. split; [reflexivity|].
  refine (flood_only_from_full_after_tolerance 2 5 (Op_append (ok_at 110) "f") full3 _ _ _ _).
  - vm_compute. reflexivity.
  - reflexivity.
  - discriminate.
Defined.

(** C4 as stated fails: in [full3] the level is Full but one message has
    been consumed, so the ring is not full (3 of 4 usable slots); the
    append at time 110 still escalates to Flood, and stores its message. *)
Lemma flood_entered_while_not_full :
  state full3 = FULL /\
  full (message_count full3) (current_capacity full3) = false /\
  match buffer_append 2 5 (ok_at 110) "f" full3 with
  | Ret (r, s', _) => r = 0 /\ state s' = FLOOD /\ buff_flood (buff s') = true
  | _ => False
  end.
Proof. vm_compute. repeat split. Qed.

(** ** Edge flags *)

Lemma flags_kept_ext a a' b b' :
  state a = state a' -> buff a = buff a' ->
  state b = state b' -> buff b = buff b' ->
  flags_kept a b -> flags_kept a' b'.
Proof. unfold flags_kept. intros -> -> -> ->. trivial. Qed.

Lemma append_level_flags e s : flags_kept s (append_level e s).
Proof.
  unfold flags_kept, append_level.
  destruct (state s) eqn:St; repeat case_match; simpl;
    rewrite ?St; intuition congruence.
Qed.

Lemma dispatch_level_flags s : flags_kept s (dispatch_level s).
Proof.
  unfold flags_kept, dispatch_level.
  destruct (state s) eqn:St; repeat case_match; simpl;
    rewrite ?St; intuition congruence.
Qed.

(** C5, as the code has it.  Across [buffer_append] and across the pop
    step of the dispatcher a set edge flag stays set unless the level
    switch of that step leaves the flag's level: [normal] is never
    cleared there; [warn] is cleared only by a transition into Normal;
    [full] only by a transition from Full or Flood to Normal or Warning;
    [flood] only by a transition out of Flood; a step that keeps the level
    clears nothing.  The notification step of the dispatcher sends one
    notification per set flag, in the order warn, full, flood, normal,
    and leaves all four clear. *)
Theorem edge_flags_cleared_only_on_leaving_level lo hi :
  (forall e msg s r s' cs,
     buffer_append lo hi e msg s = Ret (r, s', cs) -> flags_kept s s') /\
  (forall s m s', dispatch_pop s = Ret (m, s') -> flags_kept s s') /\
  (forall s,
     fst (dispatch_notify s) =
       (if buff_warn (buff s) then [Notify_warn] else []) ++
       (if buff_full (buff s) then [Notify_full] else []) ++
       (if buff_flood (buff s) then [Notify_flood] else []) ++
       (if buff_normal (buff s) then [Notify_normal] else []) /\
     buff (snd (dispatch_notify s)) = mkBuff false false false false).
Proof.
  split; [|split].
  - intros e msg s r s' cs H.
    apply buffer_append_level in H as (Hst & Hb & _). simpl in *.
    destruct (append_resize_frame lo hi e s) as (_ & _ & _ & Est & Eb & _).
    eapply flags_kept_ext; [exact Est | exact Eb | symmetry; exact Hst
                           | symmetry; exact Hb | apply append_level_flags].
  - intros s m s' H. apply dispatch_pop_level in H as (Hst & Hb & _).
    eapply flags_kept_ext; [reflexivity | reflexivity | symmetry; exact Hst
                           | symmetry; exact Hb | apply dispatch_level_flags].
  - intros s. unfold dispatch_notify.
    destruct (buff s) as [f w fl n] eqn:B.
    destruct s; simpl in *; subst.
    destruct f, w, fl, n; simpl; split; reflexivity.
Qed.

Lemma edge_flags_cleared_only_on_leaving_level_witness :
  (exists s', buffer_append 2 5 (ok_at 7) "e" warned4 = Ret (-1, s', []) /\
              flags_kept warned4 s') /\
  (exists m s', dispatch_pop warned4 = Ret (m, s') /\ flags_kept warned4 s') /\
  fst (dispatch_notify warned4) = [Notify_warn].
Proof.
  split; [|split].
  - eexists. split; [vm_compute; reflexivity|].
    refine (proj1 (edge_flags_cleared_only_on_leaving_level 2 5)
              (ok_at 7) "e" warned4 (-1) _ [] _).
    vm_compute. reflexivity.
  - eexists. eexists. split; [vm_compute; reflexivity|].
    refine (proj1 (proj2 (edge_flags_cleared_only_on_leaving_level 2 5))
              warned4 _ _ _).
    vm_compute. reflexivity.
  - exact (proj1 (proj2 (proj2 (edge_flags_cleared_only_on_leaving_level 2 5)) warned4)).
Defined.

(** C5 as stated fails.  With warn at 10 percent, normal at 9 percent and
    room to grow, the second append enters Warning and sets [warn]; three
    more appends, with no dispatcher step between them, double the
    capacity until the fill is normal again, and the switch of
    [buffer_append] clears [warn] before any notification was sent. *)
Lemma warn_edge_cleared_before_notification :
  match run 2 1024 [Op_init true (mkConf 2 10 9 10);
                    Op_append (ok_at 0) "a"; Op_append (ok_at 0) "b"] boot with
  | Ret s =>
      state s = WARNING /\ buff_warn (buff s) = true /\
      match run 2 1024 [Op_append (ok_at 0) "c"; Op_append (ok_at 0) "d";
                        Op_append (ok_at 0) "e"] s with
      | Ret s' => state s' = NORMAL /\ buff_warn (buff s') = false
      | _ => False
      end
  | _ => False
  end.
Proof. vm_compute. repeat split. Qed.

(** ** Leaving Full for Warning *)

(** In Full and in Flood the growth block of [buffer_append] is skipped. *)
Lemma append_resize_skipped lo hi e s :
  state s = FULL \/ state s = FLOOD -> append_resize lo hi e s = (s, []).
Proof. unfold append_resize. intros [-> | ->]; reflexivity. Qed.

(** C6, as the code has it.  When the level switch runs in Full with the
    ring not full, the fill above [normal_level] and below [warn_level]
    (and, in [buffer_append], the tolerance not yet reached), the level
    becomes Warning, the [warn] flag is set and the [full] flag cleared;
    the time stamp [start] of the entry into Full is left as it was. *)
Theorem full_to_warning_below_warn_level lo hi :
  (forall e msg s r s' cs,
     buffer_append lo hi e msg s = Ret (r, s', cs) ->
     state s = FULL ->
     now e - start s < tolerance s ->
     full (message_count s) (current_capacity s) = false ->
     normal s (message_count s) (current_capacity s) = false ->
     nowarn s (message_count s) (current_capacity s) = true ->
     state s' = WARNING /\ buff_warn (buff s') = true /\
     buff_full (buff s') = false /\ start s' = start s) /\
  (forall s m s',
     dispatch_pop s = Ret (m, s') ->
     state s = FULL ->
     full (message_count s) (current_capacity s) = false ->
     normal s (message_count s) (current_capacity s) = false ->
     nowarn s (message_count s) (current_capacity s) = true ->
     state s' = WARNING /\ buff_warn (buff s') = true /\
     buff_full (buff s') = false /\ start s' = start s).
Proof.
  split.
  - intros e msg s r s' cs H St Ht Hf Hn Hw.
    apply buffer_append_level in H as (-> & -> & -> & _).
    rewrite append_resize_skipped by auto. simpl.
    unfold append_level. rewrite St. simpl.
    destruct (Z.leb_spec (tolerance s) (now e - start s)); [lia|].
    unfold normal, nowarn in *. simpl. rewrite Hn, Hw, Hf. simpl. auto.
  - intros s m s' H St Hf Hn Hw.
    apply dispatch_pop_level in H as (-> & -> & -> & _).
    unfold dispatch_level. rewrite St, Hn, Hw. simpl. auto.
Qed.

Lemma full_to_warning_below_warn_level_witness :
  (exists s', buffer_append 2 5 (ok_at 101) "f" full2 = Ret (0, s', [Call_w_cond_signal]) /\
              state s' = WARNING /\ buff_warn (buff s') = true /\
              buff_full (buff s') = false /\ start s' = start full2) /\
  (exists m s', dispatch_pop full2 = Ret (m, s') /\
                state s' = WARNING /\ buff_warn (buff s') = true /\
                buff_full (buff s') = false /\ start s' = start full2).
Proof.
  split.
  - eexists. split; [vm_compute; reflexivity|].
    refine (proj1 (full_to_warning_below_warn_level 2 5)
              (ok_at 101) "f" full2 0 _ [Call_w_cond_signal] _ _ _ _ _ _);
      vm_compute; reflexivity.
  - eexists. eexists. split; [vm_compute; reflexivity|].
    refine (proj2 (full_to_warning_below_warn_level 2 5) full2 _ _ _ _ _ _ _);
      vm_compute; reflexivity.
Defined.

(** C6 as stated fails twice.  In [full3] the level is Full, the ring is
    not full and the fill (75 percent) is above [normal_level] but not
    below [warn_level]: both switches keep the level Full.  In [full2]
    the fill is 50 percent and both switches do move to Warning, but the
    time stamp of the entry into Full, 100, is not cleared. *)
Lemma full_left_only_below_warn_level_and_timer_kept :
  (state full3 = FULL /\
   full (message_count full3) (current_capacity full3) = false /\
   normal full3 (message_count full3) (current_capacity full3) = false /\
   match buffer_append 2 5 (ok_at 101) "f" full3, dispatch_pop full3 with
   | Ret (_, s1, _), Ret (_, s2) => state s1 = FULL /\ state s2 = FULL
   | _, _ => False
   end) /\
  (state full2 = FULL /\
   full (message_count full2) (current_capacity full2) = false /\
   normal full2 (message_count full2) (current_capacity full2) = false /\
   match buffer_append 2 5 (ok_at 101) "f" full2, dispatch_pop full2 with
   | Ret (_, s1, _), Ret (_, s2) =>
       state s1 = WARNING /\ start s1 = 100 /\ state s2 = WARNING /\ start s2 = 100
   | _, _ => False
   end).
Proof. vm_compute. repeat split. Qed.

(** ** A failed copy of the message *)

Lemma append_resize_no_signal lo hi e s :
  ~ In Call_w_cond_signal (snd (append_resize lo hi e s)).
Proof.
  unfold append_resize. repeat case_match; simpl; intuition discriminate.
Qed.

(** C8, as the code has it.  When [strdup] fails, [buffer_append] returns
    -1, leaves [message_count], [i] and [j] as they were and does not
    signal the condition.  The capacity, the level, the edge flags and
    the time stamp [start] are those that the growth block and the level
    switch, which both run before the copy, produced. *)
Theorem failed_copy_keeps_count_and_indices lo hi e msg s r s' cs :
  strdup_ok e = false ->
  buffer_append lo hi e msg s = Ret (r, s', cs) ->
  r = -1 /\ message_count s' = message_count s /\ i s' = i s /\ j s' = j s /\
  ~ In Call_w_cond_signal cs /\
  let s1 := append_level e (fst (append_resize lo hi e s)) in
  current_capacity s' = current_capacity s1 /\ state s' = state s1 /\
  buff s' = buff s1 /\ start s' = start s1.
Proof.
  intros Hdup H.
  pose proof (buffer_append_level _ _ _ _ _ _ _ _ H) as (L1 & L2 & L3 & L4).
  apply buffer_append_inv in H as (cs' & H & ->).
  destruct (append_level_frame e (fst (append_resize lo hi e s)))
    as (Li & Lj & Lc & _).
  destruct (append_resize_frame lo hi e s) as (Ri & Rj & Rc & _).
  assert (r = -1 /\ message_count s' = message_count s /\ i s' = i s /\
          j s' = j s /\ cs' = []) as (-> & -> & -> & -> & ->).
  { unfold append_store in H. rewrite Hdup in H.
    repeat case_match; simplify_eq; simpl; repeat split; congruence. }
  repeat split; auto.
  rewrite app_nil_r. apply append_resize_no_signal.
Qed.

Lemma failed_copy_keeps_count_and_indices_witness :
  exists s',
    buffer_append 2 5 (mkEnv 101 true false) "f" full2 = Ret (-1, s', []) /\
    message_count s' = message_count full2 /\ i s' = i full2 /\ j s' = j full2.
Proof.
  eexists. split; [vm_compute; reflexivity|].
  pose proof (failed_copy_keeps_count_and_indices 2 5 (mkEnv 101 true false) "f"
                full2 (-1) _ [] eq_refl eq_refl) as (_ & Hc & Hi & Hj & _).
  exact (conj Hc (conj Hi Hj)).
Defined.

(** C8 as stated fails.  After three appends the level is Normal and the
    fill is at [warn_level].  A fourth append whose [strdup] fails returns
    -1, but by then the level switch has moved to Warning and set the
    [warn] flag; and where the ring may grow (maximum 16) the capacity has
    gone from 5 to 10. *)
Lemma failed_copy_changes_level_and_capacity :
  match buffer_append 2 5 (mkEnv 0 true false) "d" filled3,
        buffer_append 2 16 (mkEnv 0 true false) "d" filled3 with
  | Ret (r, s', _), Ret (r2, s2, _) =>
      r = -1 /\ state filled3 = NORMAL /\ state s' = WARNING /\
      buff_warn (buff filled3) = false /\ buff_warn (buff s') = true /\
      r2 = -1 /\ current_capacity filled3 = 5 /\ current_capacity s2 = 10
  | _, _ => False
  end.
Proof. vm_compute. repeat split. Qed.

(** ** The growth policy *)

(** The requested capacity never exceeds the maximum. *)
Lemma new_desired_capacity_le_max lo hi s : new_desired_capacity lo hi s <= hi.
Proof. unfold new_desired_capacity. repeat case_match; lia. Qed.

(** The request is the double, taken in [unsigned int], clamped between
    the two bounds. *)
Lemma new_desired_capacity_min_max lo hi s :
  new_desired_capacity lo hi s =
    Z.min hi (Z.max lo (uint (current_capacity s * 2))).
Proof. unfold new_desired_capacity. repeat case_match; lia. Qed.

(** At the maximum capacity the growth block does nothing. *)
Lemma append_resize_at_max lo hi e s :
  hi <= current_capacity s -> append_resize lo hi e s = (s, []).
Proof.
  intros H. unfold append_resize.
  pose proof (new_desired_capacity_le_max lo hi s).
  repeat case_match; try reflexivity; lia.
Qed.

(** Every resize call was made by the growth block, for its target. *)
Lemma append_resize_call lo hi e s n :
  In (Call_resize_internal_buffer n) (snd (append_resize lo hi e s)) ->
  (state s = WARNING \/
   (state s = NORMAL /\ warn s (message_count s) (current_capacity s) = true)) /\
  n = new_desired_capacity lo hi s /\
  current_capacity s < n.
Proof.
  unfold append_resize.
  repeat case_match; simpl; intros Hin; try tauto;
    destruct Hin as [[= <-] | []]; repeat split; auto; lia.
Qed.

Lemma append_store_no_resize e msg s r s' cs n :
  append_store e msg s = Ret (r, s', cs) ->
  ~ In (Call_resize_internal_buffer n) cs.
Proof.
  unfold append_store. intros H.
  repeat case_match; simplify_eq; simpl; intuition discriminate.
Qed.

(** The growth block never lowers the capacity, and a capacity it sets
    lies within the maximum. *)
Lemma append_resize_capacity lo hi e s :
  let s' := fst (append_resize lo hi e s) in
  current_capacity s' = current_capacity s \/
  (current_capacity s < current_capacity s' <= hi).
Proof.
  unfold append_resize, resize_internal_buffer.
  repeat case_match; simpl; auto; right; bool_hyps; lia.
Qed.

Lemma buffer_append_capacity lo hi e msg s r s' cs :
  buffer_append lo hi e msg s = Ret (r, s', cs) ->
  current_capacity s' = current_capacity s \/
  (current_capacity s < current_capacity s' <= hi).
Proof.
  intros H. apply buffer_append_level in H as (_ & _ & _ & ->).
  destruct (append_level_frame e (fst (append_resize lo hi e s)))
    as (_ & _ & _ & _ & -> & _).
  apply append_resize_capacity.
Qed.

Lemma step_capacity_bounded lo hi o s s' :
  capacity_bounded hi s -> step lo hi o s = Ret s' -> capacity_bounded hi s'.
Proof.
  unfold capacity_bounded. intros Hs Hstep.
  destruct o as [a c|e msg| | |]; simpl in Hstep.
  - apply buffer_init_post in Hstep as (_ & _ & _ & _ & _ & Hc & Hd).
    assert (0 <= current_capacity s').
    { rewrite Hc. unfold uint. apply Z.mod_pos_bound. lia. }
    lia.
  - apply step_append_inv in Hstep as (r & cs & E).
    apply buffer_append_capacity in E. lia.
  - apply (step_pop_inv lo hi) in Hstep as (m & E).
    apply dispatch_pop_level in E as (_ & _ & _ & -> & _). exact Hs.
  - simplify_eq.
    destruct (dispatch_notify_frame s) as (_ & _ & _ & _ & _ & -> & _). exact Hs.
  - simplify_eq. left. reflexivity.
Qed.

Lemma run_capacity_bounded lo hi ops s s' :
  capacity_bounded hi s -> run lo hi ops s = Ret s' -> capacity_bounded hi s'.
Proof.
  revert s. induction ops as [|o ops IH]; simpl; intros s Hs H.
  - simplify_eq. exact Hs.
  - destruct (step lo hi o s) as [s1| | |] eqn:E; simpl in H; try discriminate.
    eapply IH; [|exact H]. eapply step_capacity_bounded; eauto.
Qed.

Lemma step_capacity_mono lo hi o s s' :
  in_lifetime o = true -> step lo hi o s = Ret s' ->
  current_capacity s <= current_capacity s'.
Proof.
  intros Ho Hstep. destruct o as [a c|e msg| | |]; simpl in *; try discriminate.
  - apply step_append_inv in Hstep as (r & cs & E).
    apply buffer_append_capacity in E. lia.
  - apply (step_pop_inv lo hi) in Hstep as (m & E).
    apply dispatch_pop_level in E as (_ & _ & _ & -> & _). lia.
  - simplify_eq.
    destruct (dispatch_notify_frame s) as (_ & _ & _ & _ & _ & -> & _). lia.
Qed.

Lemma run_capacity_mono lo hi ops s s' :
  forallb in_lifetime ops = true -> run lo hi ops s = Ret s' ->
  current_capacity s <= current_capacity s'.
Proof.
  revert s. induction ops as [|o ops IH]; simpl; intros s Ho H.
  - simplify_eq. lia.
  - apply andb_prop in Ho as [Ho Hops].
    destruct (step lo hi o s) as [s1| | |] eqn:E; simpl in H; try discriminate.
    apply (step_capacity_mono _ _ _ _ _ Ho) in E.
    specialize (IH s1 Hops H). lia.
Qed.

(** C9.  In any state reached from program start by public operations:
    [buffer_append] calls the resize only when the level is Warning, or
    Normal with the warn test already true; the capacity it asks for is
    min(MAX, max(MIN, capacity * 2)), the product being the [unsigned int]
    one, which is the exact double as soon as the maximum is below 2^31;
    the call is made only when that target exceeds the current capacity;
    and the capacity never decreases, neither in one [buffer_append] nor
    along any run of appends, pops and notifications that follows one
    [buffer_init]. *)
Theorem growth_policy lo hi ops s :
  run lo hi ops boot = Ret s ->
  (forall e msg r s' cs n,
     buffer_append lo hi e msg s = Ret (r, s', cs) ->
     In (Call_resize_internal_buffer n) cs ->
     (state s = WARNING \/
      (state s = NORMAL /\ warn s (message_count s) (current_capacity s) = true)) /\
     n = Z.min hi (Z.max lo (uint (current_capacity s * 2))) /\
     (hi < 2 ^ 31 -> n = Z.min hi (Z.max lo (current_capacity s * 2))) /\
     current_capacity s < n) /\
  (forall e msg r s' cs,
     buffer_append lo hi e msg s = Ret (r, s', cs) ->
     current_capacity s <= current_capacity s') /\
  (forall ops' s',
     forallb in_lifetime ops' = true ->
     run lo hi ops' s = Ret s' ->
     current_capacity s <= current_capacity s').
Proof.
  intros Hreach.
  assert (capacity_bounded hi s) as Hb.
  { eapply run_capacity_bounded; [|exact Hreach]. left. reflexivity. }
  split; [|split].
  - intros e msg r s' cs n H Hin.
    apply buffer_append_inv in H as (cs' & H & ->).
    apply in_app_or in Hin as [Hin | Hin];
      [|exfalso; eapply append_store_no_resize; eauto].
    apply append_resize_call in Hin as (Hst & -> & Hlt).
    rewrite new_desired_capacity_min_max in *.
    repeat split; auto.
    intros Hhi. unfold uint. rewrite Z.mod_small; [reflexivity|].
    unfold capacity_bounded in Hb. lia.
  - intros e msg r s' cs H. apply buffer_append_capacity in H. lia.
  - intros ops' s'. apply run_capacity_mono.
Qed.

Lemma growth_policy_witness :
  exists s',
    buffer_append 2 16 (ok_at 0) "d" filled3
      = Ret (0, s', [Call_resize_internal_buffer 10; Call_w_cond_signal]) /\
    state filled3 = NORMAL /\
    warn filled3 (message_count filled3) (current_capacity filled3) = true /\
    10 = Z.min 16 (Z.max 2 (current_capacity filled3 * 2)) /\
    current_capacity filled3 < 10 /\
    current_capacity filled3 <= current_capacity s'.
Proof.
  eexists. split; [vm_compute; reflexivity|].
  pose proof (growth_policy 2 16 (take 4 fill4) filled3 eq_refl) as (H1 & H2 & _).
  specialize (H1 (ok_at 0) "d" 0 _ _ 10 eq_refl (or_introl eq_refl)).
  specialize (H2 (ok_at 0) "d" 0 _ _ eq_refl).
  destruct H1 as (_ & _ & Hn & Hlt).
  split; [reflexivity|]. split; [reflexivity|].
  split; [apply Hn; reflexivity|]. split; [exact Hlt | exact H2].
Defined.

(** ** The scenario of the fifth append *)

Lemma run_app lo hi ops1 ops2 s :
  run lo hi (ops1 ++ ops2) s = (s' ← run lo hi ops1 s; run lo hi ops2 s').
Proof.
  revert s. induction ops1 as [|o ops1 IH]; intros s; simpl; [reflexivity|].
  destruct (step lo hi o s); simpl; auto.
Qed.

Lemma buffer_append_at_max lo hi e msg s :
  hi <= current_capacity s ->
  buffer_append lo hi e msg s =
    (r ← append_store e msg
           (w_agentd_state_update INCREMENT_MSG_COUNT (append_level e s));
     Ret (fst (fst r), snd (fst r), snd r)).
Proof.
  intros H. unfold buffer_append. rewrite append_resize_at_max by exact H.
  reflexivity.
Qed.

(** C3, as the code has it.  With usable length 4 (capacity 5), warn 75,
    normal 25, tolerance 10 and a ring that cannot grow (maximum capacity
    5): the level switch runs before the message is stored, so after
    "a", "b", "c", "d" the four messages are held, the level is Warning
    and only the [warn] flag is set.  The fifth append finds the ring
    full: it moves the level to Full, sets the [full] flag, records the
    time of the call in [start], returns -1 and stores nothing. *)
Theorem fifth_append_enters_full_and_drops lo t1 t2 t3 t4 a1 a2 a3 a4 e5 :
  run lo 5 [Op_init true conf4;
            Op_append (mkEnv t1 a1 true) "a"; Op_append (mkEnv t2 a2 true) "b";
            Op_append (mkEnv t3 a3 true) "c"; Op_append (mkEnv t4 a4 true) "d"] boot
    = Ret warned4 /\
  state warned4 = WARNING /\
  buff warned4 = mkBuff false true false false /\
  message_count warned4 = 4 /\ current_capacity warned4 = 5 /\
  buffer warned4 = Some [Some "a"; Some "b"; Some "c"; Some "d"; None] /\
  exists s5,
    buffer_append lo 5 e5 "e" warned4 = Ret (-1, s5, []) /\
    state s5 = FULL /\ buff_full (buff s5) = true /\ start s5 = now e5 /\
    buffer s5 = buffer warned4 /\ message_count s5 = 4 /\
    i s5 = i warned4 /\ j s5 = j warned4.
Proof.
  split.
  - match goal with
    | |- run _ _ [?o0; ?o1; ?o2; ?o3; ?o4] _ = _ =>
        change [o0; o1; o2; o3; o4] with ([o0; o1; o2; o3] ++ [o4])
    end.
    rewrite (run_app lo 5
               [Op_init true conf4;
                Op_append (mkEnv t1 a1 true) "a"; Op_append (mkEnv t2 a2 true) "b";
                Op_append (mkEnv t3 a3 true) "c"]
               [Op_append (mkEnv t4 a4 true) "d"]).
    assert (run lo 5 [Op_init true conf4;
                      Op_append (mkEnv t1 a1 true) "a"; Op_append (mkEnv t2 a2 true) "b";
                      Op_append (mkEnv t3 a3 true) "c"] boot = Ret filled3) as ->
        by (vm_compute; reflexivity).
    cbn [mbind outcome_bind run step].
    rewrite buffer_append_at_max by (vm_compute; discriminate).
    vm_compute. reflexivity.
  - do 5 (split; [reflexivity|]).
    rewrite buffer_append_at_max by (vm_compute; discriminate).
    eexists. split; [vm_compute; reflexivity|].
    cbn [state buff buff_full start buffer message_count i j].
    repeat split.
Qed.

(** C3 as stated fails.  Where the ring cannot grow, the level after the
    fourth append is Warning and the [full] flag is clear; Full is entered
    by the fifth append.  Where it can grow (maximum 16), the fourth
    append doubles the capacity to 10, the level stays Normal, and the
    fifth append is stored and returns 0. *)
Lemma fourth_append_does_not_enter_full :
  (run 2 5 fill4 boot = Ret warned4 /\
   state warned4 <> FULL /\ buff_full (buff warned4) = false /\ start warned4 = 0) /\
  match run 2 16 fill4 boot with
  | Ret s =>
      state s = NORMAL /\ current_capacity s = 10 /\
      match buffer_append 2 16 (ok_at 7) "e" s with
      | Ret (r, s', _) => r = 0 /\ message_count s' = 5
      | _ => False
      end
  | _ => False
  end.
Proof. vm_compute. repeat split. discriminate. Qed.

(** ** Resizing the ring *)

Lemma uint_small z : 0 <= z < 4294967296 -> uint z = z.
Proof. intros H. unfold uint. apply Z.mod_small. exact H. Qed.

Lemma sint_small z : -2147483648 <= z < 2147483648 -> sint z = z.
Proof. intros H. unfold sint. rewrite Z.mod_small; lia. Qed.

(** The NULL-filling loop touches no cell below its start. *)
Lemma null_fill_app (b : list slot) (n : nat) :
  foldl (fun acc k => <[k:=None]> acc) (b ++ replicate n None)
        (seq (length b) n) = b ++ replicate n None.
Proof.
  assert (forall (l : list nat) (c : list slot),
            (forall k, In k l -> c !! k = Some None) ->
            foldl (fun acc k => <[k:=None]> acc) c l = c) as Hfix.
  { intros l. induction l as [|k l IH]; intros c Hc; simpl; [reflexivity|].
    rewrite list_insert_id by (apply Hc; left; reflexivity).
    apply IH. intros k' Hk'. apply Hc. right. exact Hk'. }
  apply Hfix. intros k Hk. apply in_seq in Hk.
  rewrite lookup_app_r by lia.
  apply lookup_replicate_2. lia.
Qed.

(** A successful growth of a well-formed array, step by step. *)
Lemma resize_internal_buffer_grow hi n s b :
  buffer s = Some b ->
  Z.of_nat (length b) = current_capacity s ->
  current_capacity s < n <= hi ->
  resize_internal_buffer hi true n s =
    (0, set_current_capacity n
          (set_buffer (Some (b ++ replicate (Z.to_nat (n - current_capacity s)) None)) s)).
Proof.
  intros Hb Hlen Hn. unfold resize_internal_buffer.
  destruct (Z.eqb_spec n 0) as [|_]; [lia|].
  destruct (Z.ltb_spec hi n) as [|_]; [lia|]. simpl.
  destruct (Z.ltb_spec (current_capacity s) n) as [_|]; [|lia].
  unfold realloc, null_fill. rewrite Hb. simpl.
  rewrite take_ge by lia.
  replace (Z.to_nat n - length b)%nat with (Z.to_nat (n - current_capacity s)) by lia.
  replace (Z.to_nat n - Z.to_nat (current_capacity s))%nat
    with (Z.to_nat (n - current_capacity s)) by lia.
  replace (Z.to_nat (current_capacity s)) with (length b) by lia.
  rewrite null_fill_app. reflexivity.
Qed.

(** One pop step on a non-empty buffer whose tail index is in range. *)
Lemma dispatch_pop_in_range s b :
  buffer s = Some b ->
  0 < message_count s < 4294967296 ->
  0 <= j s < Z.of_nat (length b) ->
  current_capacity s <> 0 ->
  exists s',
    dispatch_pop s = Ret (default None (b !! Z.to_nat (j s)), s') /\
    buffer s' = Some (<[Z.to_nat (j s):=None]> b) /\
    j s' = sint (uint (j s + 1) mod current_capacity s) /\
    message_count s' = message_count s - 1 /\
    current_capacity s' = current_capacity s.
Proof.
  intros Hb Hc Hj Hcap. unfold dispatch_pop.
  destruct (dispatch_level_frame s) as (_ & Fj & Fc & Fb & Fcap & _).
  simpl in Fj, Fc, Fb, Fcap.
  unfold empty. destruct (Z.eqb_spec (message_count s) 0) as [|_]; [lia|].
  cbv zeta. rewrite Fb, Hb, Fj, Fcap, Fc.
  destruct (Z.leb_spec 0 (j s)) as [_|]; [|lia].
  destruct (Z.ltb_spec (j s) (Z.of_nat (length b))) as [_|]; [|lia].
  simpl. unfold forward.
  destruct (Z.eqb_spec (current_capacity s) 0) as [|_]; [lia|].
  eexists. split; [reflexivity|]. simpl.
  rewrite (uint_small (message_count s - 1)) by lia. auto.
Qed.

(** Pops over a stretch of the array that does not reach its end [L]
    hand out the cells of that stretch, in index order. *)
Lemma pop_n_unwrapped (k : nat) :
  forall (s : globals) (b : list slot) (L : Z),
    buffer s = Some b ->
    L <= Z.of_nat (length b) ->
    L <= current_capacity s ->
    L < 2147483648 ->
    0 <= j s ->
    j s + Z.of_nat k <= L ->
    Z.of_nat k <= message_count s < 4294967296 ->
    exists s', pop_n k s = Ret (take k (drop (Z.to_nat (j s)) b), s').
Proof.
  induction k as [|k IH]; intros s b L Hb HLb HLc HL Hj0 Hj Hc.
  - eexists. reflexivity.
  - destruct (dispatch_pop_in_range s b Hb) as (s1 & Hpop & Hb1 & Hj1 & Hc1 & Hcap1);
      try lia.
    destruct (lookup_lt_is_Some_2 b (Z.to_nat (j s))) as [x Hx]; [lia|].
    rewrite Hx in Hpop. simpl in Hpop.
    assert (0 <= j s1 <= j s + 1 /\ (k <> O -> j s1 = j s + 1)) as [Hj1a Hj1b].
    { rewrite Hj1. rewrite uint_small by lia.
      pose proof (Z.mod_pos_bound (j s + 1) (current_capacity s) ltac:(lia)).
      pose proof (Z.mod_le (j s + 1) (current_capacity s) ltac:(lia) ltac:(lia)).
      rewrite sint_small by lia.
      split; [lia|]. intros Hk. apply Z.mod_small. lia. }
    destruct (IH s1 (<[Z.to_nat (j s):=None]> b) L) as (s2 & Hrest);
      rewrite ?length_insert; try lia.
    { exact Hb1. }
    exists s2. simpl. rewrite Hpop. simpl. rewrite Hrest. simpl.
    f_equal. f_equal.
    rewrite (drop_S b x (Z.to_nat (j s)) Hx). simpl. f_equal.
    destruct k; [reflexivity|].
    rewrite Hj1b by discriminate.
    replace (Z.to_nat (j s + 1)) with (S (Z.to_nat (j s))) by lia.
    rewrite drop_insert_lt by lia. reflexivity.
Qed.

(** C1, as the code has it.  Take a successful growth of the array to a
    capacity [n] above the current one, on a ring whose live region ends
    before the end of the array ([j + message_count < capacity], so the
    head index has not wrapped around to 0).  The array is extended in
    place: the cells below the old capacity keep their contents and
    positions, the added cells are NULL, and [i], [j] and
    [message_count] are not changed, so the tail is not moved to 0.  The
    ring invariant carries over to the new capacity, and the next
    [message_count] pops after the resize hand out the live messages,
    the cells from [j] on, in the order in which they would have been
    handed out without the resize. *)
Theorem resize_keeps_positions hi n s b :
  buffer s = Some b ->
  Z.of_nat (length b) = current_capacity s ->
  current_capacity s < n <= hi ->
  current_capacity s < 2 ^ 31 ->
  0 <= j s ->
  0 <= message_count s ->
  j s + message_count s < current_capacity s ->
  let s' := snd (resize_internal_buffer hi true n s) in
  let k := Z.to_nat (message_count s) in
  fst (resize_internal_buffer hi true n s) = 0 /\
  buffer s' = Some (b ++ replicate (Z.to_nat (n - current_capacity s)) None) /\
  current_capacity s' = n /\
  i s' = i s /\ j s' = j s /\ message_count s' = message_count s /\
  (ring_inv s -> ring_inv s') /\
  exists sa sb,
    pop_n k s = Ret (take k (drop (Z.to_nat (j s)) b), sa) /\
    pop_n k s' = Ret (take k (drop (Z.to_nat (j s)) b), sb).
Proof.
  intros Hb Hlen Hn Hcap Hj Hc Hwrap.
  rewrite (resize_internal_buffer_grow hi n s b Hb Hlen Hn). simpl.
  do 6 (split; [reflexivity|]).
  split.
  { unfold ring_inv. simpl. intros [Hcount Hring].
    rewrite Z.mod_small in Hring by lia.
    split; [lia|]. rewrite Z.mod_small by lia. exact Hring. }
  destruct (pop_n_unwrapped (Z.to_nat (message_count s)) s b (current_capacity s))
    as (sa & Ha); try lia; [exact Hb|].
  destruct (pop_n_unwrapped (Z.to_nat (message_count s))
              (set_current_capacity n
                 (set_buffer
                    (Some (b ++ replicate (Z.to_nat (n - current_capacity s)) None)) s))
              (b ++ replicate (Z.to_nat (n - current_capacity s)) None)
              (current_capacity s))
    as (sb & Hsb); simpl; rewrite ?length_app, ?length_replicate; try lia;
    [reflexivity|].
  exists sa, sb. split; [exact Ha|].
  rewrite Hsb. simpl. f_equal. f_equal.
  rewrite drop_app_le by lia. apply take_app_le.
  rewrite length_drop. lia.
Qed.

Lemma resize_keeps_positions_witness :
  let s' := snd (resize_internal_buffer 16 true 10 shifted3) in
  buffer s' = Some [None; Some "b"; Some "c"; Some "d"; None;
                    None; None; None; None; None] /\
  i s' = 4 /\ j s' = 1 /\ message_count s' = 3 /\
  ring_inv s' /\
  exists sa sb,
    pop_n 3 shifted3 = Ret ([Some "b"; Some "c"; Some "d"], sa) /\
    pop_n 3 s' = Ret ([Some "b"; Some "c"; Some "d"], sb).
Proof.
  assert (current_capacity shifted3 < 10 <= 16) as Hn
      by (split; [reflexivity | discriminate]).
  assert (0 <= j shifted3) as Hj by discriminate.
  assert (0 <= message_count shifted3) as Hc by discriminate.
  assert (j shifted3 + message_count shifted3 < current_capacity shifted3) as Hw
      by reflexivity.
  assert (ring_inv shifted3) as Hring
      by (split; [split; discriminate | reflexivity]).
  pose proof (resize_keeps_positions 16 10 shifted3
                [None; Some "b"; Some "c"; Some "d"; None]
                eq_refl eq_refl Hn eq_refl Hj Hc Hw)
    as (_ & Hbuf & _ & Hi & Hj' & Hc' & Hinv & Hpop).
  intros s'. split; [exact Hbuf|]. split; [exact Hi|]. split; [exact Hj'|].
  split; [exact Hc'|]. split; [exact (Hinv Hring)|]. exact Hpop.
Defined.

(** The bound of C1 is strict.  When the live region ends exactly at the
    end of the array the head index has already wrapped to 0 and the
    ring invariant holds; the growth leaves the head at 0, behind the
    tail, so the invariant no longer holds at the new capacity, the
    append that grew the array stores its message "f" in cell 0, and
    the four pops that follow hand out "c", "d", "e" and the NULL of
    cell 5. *)
Lemma growth_at_array_end_strands_message :
  match run 2 16 [Op_init true conf4;
                  Op_append (ok_at 0) "a"; Op_pop; Op_notify;
                  Op_append (ok_at 0) "b"; Op_pop; Op_notify;
                  Op_append (ok_at 0) "c"; Op_append (ok_at 0) "d";
                  Op_append (ok_at 0) "e"] boot with
  | Ret s =>
      j s = 2 /\ i s = 0 /\ message_count s = 3 /\ current_capacity s = 5 /\
      (j s + message_count s) mod current_capacity s = i s /\
      (let s' := snd (resize_internal_buffer 16 true 10 s) in
       i s' = 0 /\ (j s' + message_count s') mod current_capacity s' = 5) /\
      match buffer_append 2 16 (ok_at 0) "f" s with
      | Ret (r, s1, _) =>
          r = 0 /\ current_capacity s1 = 10 /\
          match pop_n 4 s1 with
          | Ret (out, _) => out = [Some "c"; Some "d"; Some "e"; None]
          | _ => False
          end
      | _ => False
      end
  | _ => False
  end.
Proof. vm_compute. repeat split. Qed.

(** C1 as stated fails.  In [shifted3] the live messages "b", "c", "d"
    sit in the cells 1 to 3; the resize to capacity 10 that the next
    append calls leaves [j] at 1 and [i] at 4 instead of 0 and 3.  In
    [wrapped3] the live messages "d", "e", "f" sit in the cells 3, 4 and
    0 of the five-cell array; the resize leaves [j] at 3, [i] at 1 and
    "f" in cell 0, so the pops that follow hand out "d", "e" and then the
    NULL of cell 5 instead of "f". *)
Lemma resize_moves_nothing :
  (snd (append_resize 2 16 (ok_at 0) shifted3) = [Call_resize_internal_buffer 10] /\
   message_count shifted3 = 3 /\
   j (snd (resize_internal_buffer 16 true 10 shifted3)) = 1 /\
   i (snd (resize_internal_buffer 16 true 10 shifted3)) = 4) /\
  (snd (append_resize 2 16 (ok_at 0) wrapped3) = [Call_resize_internal_buffer 10] /\
   message_count wrapped3 = 3 /\
   j (snd (resize_internal_buffer 16 true 10 wrapped3)) = 3 /\
   i (snd (resize_internal_buffer 16 true 10 wrapped3)) = 1 /\
   buffer (snd (resize_internal_buffer 16 true 10 wrapped3))
     = Some [Some "f"; None; None; Some "d"; Some "e";
             None; None; None; None; None] /\
   match pop_n 3 wrapped3, pop_n 3 (snd (resize_internal_buffer 16 true 10 wrapped3)) with
   | Ret (before, _), Ret (after, _) =>
       before = [Some "d"; Some "e"; Some "f"] /\
       after = [Some "d"; Some "e"; None]
   | _, _ => False
   end).
Proof. vm_compute. repeat split. Qed.

(** ** The ring invariant *)

(** A fresh buffer for [conf4] exists as soon as the maximum capacity
    is at least its five cells. *)
Lemma buffer_init_conf4 hi :
  5 <= hi ->
  buffer_init hi true conf4 boot
    = Ret (mkGlobals 0 0 0 NORMAL 75 25 10 (mkBuff false false false false)
             (Some [None; None; None; None; None]) 5 0 0 0).
Proof.
  intros H. assert ((hi <? 5) = false) as E by (apply Z.ltb_ge; exact H).
  unfold buffer_init, resize_internal_buffer.
  change (uint (buflength conf4 + 1)) with 5.
  cbn [buffer boot bool_decide decide_rel orb]. simpl (5 =? 0).
  cbn [orb]. rewrite E. reflexivity.
Qed.

(** [wrapped3] is reached whatever the capacity bounds are, provided the
    maximum is at least five: no growth is tried on the way. *)
Lemma wrapped3_reached_any lo hi :
  5 <= hi -> run lo hi wrap3 boot = Ret wrapped3.
Proof.
  intros H. unfold wrap3.
  match goal with
  | |- run _ _ (?o :: ?ops) _ = _ => change (o :: ops) with ([o] ++ ops)
  end.
  rewrite run_app. cbn [run step]. rewrite buffer_init_conf4 by exact H.
  vm_compute. reflexivity.
Qed.

(** The growth block when it does grow a well-formed array. *)
Lemma append_resize_grows lo hi e s b :
  state s = NORMAL ->
  warn s (message_count s) (current_capacity s) = true ->
  realloc_ok e = true ->
  buffer s = Some b ->
  Z.of_nat (length b) = current_capacity s ->
  current_capacity s < new_desired_capacity lo hi s ->
  append_resize lo hi e s =
    (set_current_capacity (new_desired_capacity lo hi s)
       (set_buffer
          (Some (b ++ replicate
                        (Z.to_nat (new_desired_capacity lo hi s - current_capacity s))
                        None)) s),
     [Call_resize_internal_buffer (new_desired_capacity lo hi s)]).
Proof.
  intros Hst Hw Hok Hb Hlen Hlt. unfold append_resize.
  rewrite Hst, Hw, Hok.
  destruct (Z.ltb_spec (current_capacity s) (new_desired_capacity lo hi s)); [|lia].
  rewrite (resize_internal_buffer_grow hi _ s b Hb Hlen); [reflexivity|].
  pose proof (new_desired_capacity_le_max lo hi s). lia.
Qed.

(** In Normal, below the warn level and not full, the producer's switch
    changes nothing. *)
Lemma append_level_normal_idle e s :
  state s = NORMAL ->
  full (message_count s) (current_capacity s) = false ->
  warn s (message_count s) (current_capacity s) = false ->
  append_level e s = s.
Proof. intros Hst Hf Hw. unfold append_level. rewrite Hst, Hf, Hw. reflexivity. Qed.

(** C2 fails on the code.  [wrapped3], reached from program start by
    public operations only, satisfies the ring invariant.  Whatever the
    capacity bounds are, as long as the maximum lets the five-cell array
    grow, the next append grows the array to [n] cells without moving the
    live messages or the indices, stores "g" and returns 0; afterwards
    [j + message_count] is 7 and [i] is 2, with a capacity of at least 6,
    so [(j + message_count) mod capacity = i] no longer holds. *)
Theorem growth_of_wrapped_ring_breaks_invariant lo hi :
  5 < hi < 2 ^ 31 ->
  let n := Z.min hi (Z.max lo 10) in
  run lo hi wrap3 boot = Ret wrapped3 /\
  ring_inv wrapped3 /\
  exists s',
    buffer_append lo hi (ok_at 0) "g" wrapped3
      = Ret (0, s', [Call_resize_internal_buffer n; Call_w_cond_signal]) /\
    j s' = 3 /\ message_count s' = 4 /\ i s' = 2 /\ current_capacity s' = n /\
    ~ ring_inv s'.
Proof.
  intros Hhi n.
  assert (5 < n < 2147483648) as Hn by (subst n; lia).
  assert (new_desired_capacity lo hi wrapped3 = n) as Hnew
      by (rewrite new_desired_capacity_min_max; reflexivity).
  clearbody n.
  split; [apply wrapped3_reached_any; lia|]. split.
  { unfold ring_inv. vm_compute. repeat split; discriminate. }
  unfold buffer_append.
  rewrite (append_resize_grows lo hi (ok_at 0) wrapped3
             [Some "f"; None; None; Some "d"; Some "e"])
    by (rewrite ?Hnew; (reflexivity || (simpl; lia))).
  rewrite Hnew. cbv zeta iota beta.
  assert (full 3 n = false) as Hfull.
  { unfold full. rewrite uint_small by lia. apply Z.eqb_neq. lia. }
  rewrite append_level_normal_idle; cycle 1.
  { reflexivity. }
  { exact Hfull. }
  { unfold warn, fill. simpl.
    destruct (Z.leb_spec n 1); [lia|]. apply Z.leb_gt.
    change (uint (3 * 100)) with 300.
    apply Z.div_lt_upper_bound; lia. }
  remember (w_agentd_state_update INCREMENT_MSG_COUNT _) as s1 eqn:Es1.
  assert (message_count s1 = 3 /\ current_capacity s1 = n /\ i s1 = 1 /\ j s1 = 3 /\
          buffer s1 = Some ([Some "f"; None; None; Some "d"; Some "e"] ++
                            replicate (Z.to_nat (n - 5)) None))
    as (Hc & Hcap & Hi & Hj & Hb) by (subst s1; repeat split).
  unfold append_store. rewrite Hc, Hcap, Hfull, Hb, Hi.
  rewrite length_app, length_replicate.
  destruct (Z.ltb_spec 1 (Z.of_nat (length [Some "f"; None; None; Some "d"; Some "e"]
                                    + Z.to_nat (n - 5))%nat)) as [_|Hlen];
    [|simpl in Hlen; lia].
  unfold forward. destruct (Z.eqb_spec n 0); [lia|].
  rewrite (uint_small (1 + 1)), Z.mod_small, sint_small by lia.
  eexists. split; [reflexivity|]. simpl.
  rewrite Hj, Hcap. do 4 (split; [reflexivity|]).
  unfold ring_inv. simpl. rewrite Hj, Hcap. intros [_ Hmod].
  change (3 + uint (3 + 1)) with 7 in Hmod. change (1 + 1) with 2 in Hmod.
  destruct (Z.eq_dec n 6) as [->|]; [discriminate Hmod|].
  destruct (Z.eq_dec n 7) as [->|]; [discriminate Hmod|].
  rewrite Z.mod_small in Hmod by lia. discriminate Hmod.
Qed.

Lemma growth_of_wrapped_ring_breaks_invariant_witness :
  run 2 16 wrap3 boot = Ret wrapped3 /\
  ring_inv wrapped3 /\
  exists s',
    buffer_append 2 16 (ok_at 0) "g" wrapped3
      = Ret (0, s', [Call_resize_internal_buffer 10; Call_w_cond_signal]) /\
    j s' = 3 /\ message_count s' = 4 /\ i s' = 2 /\ current_capacity s' = 10 /\
    ~ ring_inv s'.
Proof.
  assert (5 < 16 < 2 ^ 31) as H by (split; reflexivity).
  exact (growth_of_wrapped_ring_breaks_invariant 2 16 H).
Defined.

(** What a returning [buffer_append] does to the indices and the count:
    either nothing (the message was dropped, or its copy failed), or the
    head moved forward by one and the count went up by one. *)
Lemma buffer_append_ring lo hi e msg s r s' cs :
  buffer_append lo hi e msg s = Ret (r, s', cs) ->
  j s' = j s /\
  ((i s' = i s /\ message_count s' = message_count s) \/
   (full (message_count s) (current_capacity s') = false /\
    forward (i s) (current_capacity s') = Some (i s') /\
    message_count s' = uint (message_count s + 1))).
Proof.
  intros H. apply buffer_append_inv in H as (cs' & H & _).
  destruct (append_level_frame e (fst (append_resize lo hi e s)))
    as (Li & Lj & Lc & _).
  destruct (append_resize_frame lo hi e s) as (Ri & Rj & Rc & _).
  simpl in *. unfold append_store in H.
  repeat case_match; simplify_eq; simpl in *;
    rewrite ?Li, ?Lj, ?Lc, ?Ri, ?Rj, ?Rc in *; auto.
Qed.

(** What a returning pop step does to them: the tail moved forward by
    one and the count went down by one. *)
Lemma dispatch_pop_ring s m s' :
  dispatch_pop s = Ret (m, s') ->
  i s' = i s /\ current_capacity s' = current_capacity s /\
  message_count s <> 0 /\
  forward (j s) (current_capacity s) = Some (j s') /\
  message_count s' = uint (message_count s - 1).
Proof.
  unfold dispatch_pop. intros H.
  destruct (dispatch_level_frame s) as (Fi & Fj & Fc & _ & Fcap & _).
  simpl in *. unfold empty in H.
  destruct (Z.eqb_spec (message_count s) 0); [discriminate|].
  repeat case_match; simplify_eq; simpl in *;
    rewrite ?Fi, ?Fj, ?Fc, ?Fcap in *; auto.
Qed.

(** The ring invariant is kept by every append that does not change the
    capacity, by the pop step and by the notification step. *)
Lemma ring_invariant_kept_without_growth lo hi o s s' :
  in_lifetime o = true ->
  step lo hi o s = Ret s' ->
  current_capacity s' = current_capacity s ->
  current_capacity s < 2147483648 ->
  ring_inv s /\ 0 <= j s < current_capacity s ->
  ring_inv s' /\ 0 <= j s' < current_capacity s'.
Proof.
  unfold ring_inv. intros Ho Hstep Hcap Hlt ((Hc & Hi) & Hj).
  assert (0 <= i s < current_capacity s) as Hirange.
  { rewrite <- Hi. apply Z.mod_pos_bound. lia. }
  destruct o as [a c|e msg| | |]; simpl in *; try discriminate.
  - apply step_append_inv in Hstep as (r & cs & E).
    apply buffer_append_ring in E as (Ej & [(Ei & Ec) | (Ef & Ei & Ec)]);
      rewrite Hcap in *; rewrite Ej.
    + rewrite Ei, Ec. auto.
    + unfold full in Ef. rewrite uint_small in Ef by lia.
      apply Z.eqb_neq in Ef.
      unfold forward in Ei.
      destruct (Z.eqb_spec (current_capacity s) 0); [lia|]. simplify_eq.
      rewrite Ec, <- Ei. rewrite !uint_small by lia.
      pose proof (Z.mod_pos_bound (i s + 1) (current_capacity s) ltac:(lia)).
      rewrite sint_small by lia.
      repeat split; try lia.
      rewrite <- Hi. rewrite Z.add_mod_idemp_l by lia. f_equal. lia.
  - apply (step_pop_inv lo hi) in Hstep as (m & E).
    apply dispatch_pop_ring in E as (Ei & _ & Ene & Ej & Ec).
    unfold forward in Ej.
    destruct (Z.eqb_spec (current_capacity s) 0); [lia|]. simplify_eq.
    rewrite Hcap, Ei, Ec, <- Ej. rewrite !uint_small by lia.
    pose proof (Z.mod_pos_bound (j s + 1) (current_capacity s) ltac:(lia)).
    rewrite sint_small by lia.
    repeat split; try lia.
    rewrite <- Hi. rewrite Z.add_mod_idemp_l by lia. f_equal. lia.
  - simplify_eq.
    destruct (dispatch_notify_frame s) as (-> & -> & -> & _ & _ & -> & _). auto.
Qed.

(** * Further properties of the buffer *)

(** ** Well-formedness of every reachable state *)

Lemma null_fill_length from to (b : list slot) :
  length (null_fill from to b) = length b.
Proof.
  unfold null_fill.
  generalize (seq (Z.to_nat from) (Z.to_nat to - Z.to_nat from)).
  intros l. revert b. induction l as [|k l IH]; intros b; simpl; [reflexivity|].
  rewrite IH. apply length_insert.
Qed.

Lemma realloc_length old n :
  0 <= n -> length (realloc old n) = Z.to_nat n.
Proof.
  intros Hn. unfold realloc. rewrite length_app, length_take, length_replicate. lia.
Qed.

(** A successful resize yields an array of exactly the requested size. *)
Lemma resize_internal_buffer_ok hi a n s s' :
  0 <= n ->
  resize_internal_buffer hi a n s = (0, s') ->
  0 < n <= hi /\
  (exists b, buffer s' = Some b /\ Z.of_nat (length b) = n) /\
  current_capacity s' = n /\
  i s' = i s /\ j s' = j s /\ message_count s' = message_count s /\
  state s' = state s /\ warn_level s' = warn_level s /\
  normal_level s' = normal_level s /\ tolerance s' = tolerance s.
Proof.
  intros Hn. unfold resize_internal_buffer.
  repeat case_match; intros [= <-]; bool_hyps; simpl;
    (split; [lia|]); (split; [|repeat split]);
    eexists; (split; [reflexivity|]);
    rewrite ?null_fill_length, realloc_length by lia; lia.
Qed.

(** A failed resize changes nothing. *)
Lemma resize_internal_buffer_failed hi a n s r s' :
  resize_internal_buffer hi a n s = (r, s') -> r <> 0 -> s' = s.
Proof.
  unfold resize_internal_buffer.
  repeat case_match; intros [= <- <-]; congruence.
Qed.

Lemma resize_internal_buffer_ret hi a n s :
  fst (resize_internal_buffer hi a n s) = 0 \/
  resize_internal_buffer hi a n s = (-1, s).
Proof. unfold resize_internal_buffer. repeat case_match; auto. Qed.

Lemma buffer_init_sane hi a c s s' :
  sane hi s -> buffer_init hi a c s = Ret s' -> sane hi s'.
Proof.
  intros Hs. unfold buffer_init, getDefine_Int.
  set (d := uint (buflength c + 1)).
  assert (0 <= d) as Hd by (apply Z.mod_pos_bound; lia).
  destruct (bool_decide (buffer s = None) || negb (d =? current_capacity s)) eqn:Hpath.
  - set (s0 := match buffer s with
               | Some b => set_buffer (Some (null_fill 0 (current_capacity s) b)) s
               | None => s
               end).
    destruct (resize_internal_buffer hi a d s0) as [r s1] eqn:Hr. simpl.
    destruct (Z.eqb_spec r 0) as [->|]; [|discriminate]. simpl.
    apply resize_internal_buffer_ok in Hr as (Hdn & (b & Hb & Hlen) & Hcap & _);
      [|exact Hd].
    repeat (case_match; simpl; try discriminate). intros [= <-].
    bool_hyps. unfold sane. simpl. rewrite Hb, Hlen, Hcap. lia.
  - simpl. bool_hyps. apply bool_decide_eq_false in H.
    repeat (case_match; simpl; try discriminate). intros [= <-].
    bool_hyps. unfold sane in *. simpl.
    destruct (buffer s) as [b|]; [|congruence]. lia.
Qed.

Lemma append_resize_sane lo hi e s :
  sane hi s -> sane hi (fst (append_resize lo hi e s)).
Proof.
  intros Hs. unfold append_resize.
  destruct (match state s with
            | NORMAL => warn s (message_count s) (current_capacity s)
            | WARNING => true
            | _ => false
            end) eqn:Hgrow; [|exact Hs].
  destruct (Z.ltb_spec (current_capacity s) (new_desired_capacity lo hi s)) as [Hlt|];
    [|exact Hs].
  simpl.
  destruct (resize_internal_buffer hi (realloc_ok e) (new_desired_capacity lo hi s) s)
    as [r s1] eqn:Hr.
  destruct (Z.eq_dec r 0) as [->|Hne];
    [|apply resize_internal_buffer_failed in Hr as ->; [exact Hs|exact Hne]].
  simpl. unfold sane in Hs. destruct (buffer s) as [b|] eqn:Hb.
  - apply resize_internal_buffer_ok in Hr
      as (Hn & (b1 & Hb1 & Hlen1) & Hcap & Hi & Hj & Hc & _ & Hw & Hnl & Ht); [|lia].
    unfold sane. rewrite Hb1, Hlen1, Hcap, Hi, Hj, Hc, Hw, Hnl, Ht. lia.
  - destruct Hs as (Hcap & Hc & _ & _ & Hst). rewrite Hst in Hgrow.
    unfold warn in Hgrow. rewrite Hcap in Hgrow. discriminate.
Qed.

Lemma append_level_sane hi e s : sane hi s -> sane hi (append_level e s).
Proof.
  intros Hs.
  destruct (append_level_frame e s) as (Fi & Fj & Fc & Fb & Fcap & _ & Fw & Fn & Ft).
  simpl in *. unfold sane in *. rewrite Fb, Fi, Fj, Fc, Fcap, Fw, Fn, Ft.
  destruct (buffer s); [exact Hs|].
  destruct Hs as (Hcap & Hc & Hi & Hj & Hst). repeat split; auto.
  unfold append_level, full, warn. rewrite Hst, Hc, Hcap. simpl. exact Hst.
Qed.

Lemma append_store_sane hi e msg s r s' cs :
  hi < 2147483648 ->
  sane hi s -> append_store e msg s = Ret (r, s', cs) -> sane hi s'.
Proof.
  intros Hhi Hs H. unfold append_store in H.
  destruct (full (message_count s) (current_capacity s)) eqn:Hfull.
  { simplify_eq. exact Hs. }
  unfold sane in Hs. destruct (buffer s) as [b|] eqn:Hb; [|discriminate].
  destruct Hs as (Hlen & Hcap & Hi & Hj & Hc & Hlv).
  unfold full in Hfull. rewrite uint_small in Hfull by lia. bool_hyps.
  destruct ((0 <=? i s) && (i s <? Z.of_nat (length b))); [|discriminate].
  destruct (strdup_ok e).
  - unfold forward in H.
    destruct (Z.eqb_spec (current_capacity s) 0); [lia|]. simplify_eq.
    unfold sane. simpl. rewrite !length_insert.
    rewrite (uint_small (i s + 1)), (uint_small (message_count s + 1)) by lia.
    pose proof (Z.mod_pos_bound (i s + 1) (current_capacity s) ltac:(lia)).
    rewrite sint_small by lia. lia.
  - simplify_eq. unfold sane. simpl. rewrite length_insert. lia.
Qed.

(** With storage, the store part of [buffer_append] always returns. *)
Lemma append_store_returns hi e msg s :
  sane hi s -> buffer s <> None ->
  exists r s' cs, append_store e msg s = Ret (r, s', cs).
Proof.
  unfold sane, append_store. intros Hs Hb.
  destruct (buffer s) as [b|]; [|congruence].
  destruct Hs as (Hlen & Hcap & Hi & _).
  destruct (full _ _); [eauto|].
  destruct (Z.leb_spec 0 (i s)); [|lia].
  destruct (Z.ltb_spec (i s) (Z.of_nat (length b))); [|lia]. simpl.
  unfold forward. destruct (Z.eqb_spec (current_capacity s) 0); [lia|].
  destruct (strdup_ok e); eauto.
Qed.

Lemma buffer_append_sane lo hi e msg s r s' cs :
  hi < 2147483648 ->
  sane hi s -> buffer_append lo hi e msg s = Ret (r, s', cs) -> sane hi s'.
Proof.
  intros Hhi Hs H. apply buffer_append_inv in H as (cs' & H & _).
  eapply append_store_sane; [exact Hhi| |exact H].
  apply (append_resize_sane lo hi e), (append_level_sane hi e) in Hs.
  exact Hs.
Qed.

Lemma dispatch_pop_sane hi s m s' :
  hi < 2147483648 ->
  sane hi s -> dispatch_pop s = Ret (m, s') -> sane hi s'.
Proof.
  intros Hhi Hs H. unfold dispatch_pop in H.
  destruct (dispatch_level_frame s) as (Fi & Fj & Fc & Fb & Fcap & _ & Fw & Fn & Ft).
  simpl in *. unfold empty in H.
  destruct (Z.eqb_spec (message_count s) 0); [discriminate|].
  rewrite Fb, Fj, Fcap, Fc in H. unfold sane in Hs.
  destruct (buffer s) as [b|] eqn:Hb; [|discriminate].
  destruct Hs as (Hlen & Hcap & Hi & Hj & Hc & Hlv).
  destruct ((0 <=? j s) && (j s <? Z.of_nat (length b))); [|discriminate].
  unfold forward in H.
  destruct (Z.eqb_spec (current_capacity s) 0); [lia|]. simplify_eq.
  unfold sane. simpl. rewrite length_insert, Fi, Fcap, Fw, Fn, Ft.
  rewrite (uint_small (j s + 1)), (uint_small (message_count s - 1)) by lia.
  pose proof (Z.mod_pos_bound (j s + 1) (current_capacity s) ltac:(lia)).
  rewrite sint_small by lia. lia.
Qed.

Lemma dispatch_notify_sane hi s : sane hi s -> sane hi (snd (dispatch_notify s)).
Proof.
  intros Hs.
  assert (warn_level (snd (dispatch_notify s)) = warn_level s /\
          normal_level (snd (dispatch_notify s)) = normal_level s /\
          tolerance (snd (dispatch_notify s)) = tolerance s) as (Fw & Fn & Ft).
  { unfold dispatch_notify. repeat case_match; simplify_eq; simpl; auto. }
  destruct (dispatch_notify_frame s) as (Fi & Fj & Fc & Fst & Fb & Fcap & _).
  simpl in *. unfold sane in *.
  rewrite Fb, Fi, Fj, Fc, Fst, Fcap, Fw, Fn, Ft. exact Hs.
Qed.

Lemma step_sane lo hi o s s' :
  hi < 2147483648 -> sane hi s -> step lo hi o s = Ret s' -> sane hi s'.
Proof.
  intros Hhi Hs Hstep. destruct o as [a c|e msg| | |].
  - eapply buffer_init_sane; eauto.
  - apply step_append_inv in Hstep as (r & cs & E).
    eapply buffer_append_sane; eauto.
  - apply (step_pop_inv lo hi) in Hstep as (m & E).
    eapply dispatch_pop_sane; eauto.
  - simpl in Hstep. simplify_eq. apply dispatch_notify_sane. exact Hs.
  - simpl in Hstep. simplify_eq. unfold sane. simpl. auto.
Qed.

Lemma run_sane lo hi ops s s' :
  hi < 2147483648 -> sane hi s -> run lo hi ops s = Ret s' -> sane hi s'.
Proof.
  intros Hhi. revert s. induction ops as [|o ops IH]; simpl; intros s Hs H.
  - simplify_eq. exact Hs.
  - destruct (step lo hi o s) as [s1| | |] eqn:E; simpl in H; try discriminate.
    eapply IH; [|exact H]. eapply step_sane; eauto.
Qed.

Lemma run_from_boot_sane lo hi ops s :
  hi < 2147483648 -> run lo hi ops boot = Ret s -> sane hi s.
Proof.
  intros Hhi H. eapply run_sane; [exact Hhi| |exact H].
  unfold sane. simpl. auto.
Qed.

(** X1.  Every state reached from program start by public operations is
    well formed, provided the maximum capacity fits the signed index
    type: without storage the capacity and the count are 0; with storage
    the array has exactly [current_capacity] cells, the capacity lies
    between 1 and the maximum, [i] and [j] point into the array, the
    count leaves at least one cell free, and the configured levels are
    within the bounds [buffer_init] enforces. *)
Theorem reachable_states_are_sane lo hi ops s :
  hi < 2 ^ 31 ->
  run lo hi ops boot = Ret s ->
  sane hi s.
Proof. intros Hhi H. eapply run_from_boot_sane; eauto. Qed.

Lemma reachable_states_are_sane_witness : sane 16 wrapped3.
Proof.
  exact (reachable_states_are_sane 2 16 wrap3 wrapped3 eq_refl wrapped3_reached).
Defined.

(** X2.  In a reachable state the pop step of the dispatcher never
    touches memory it does not own: it waits exactly when the count is
    0, and otherwise returns, with the count one lower. *)
Theorem pop_waits_or_returns lo hi ops s :
  hi < 2 ^ 31 ->
  run lo hi ops boot = Ret s ->
  (message_count s = 0 /\ dispatch_pop s = Waits) \/
  (0 < message_count s /\
   exists m s', dispatch_pop s = Ret (m, s') /\
                message_count s' = message_count s - 1).
Proof.
  intros Hhi H. apply run_from_boot_sane in H; [|exact Hhi].
  unfold sane in H. destruct (buffer s) as [b|] eqn:Hb.
  - destruct H as (Hlen & Hcap & Hi & Hj & Hc & _).
    destruct (Z.eq_dec (message_count s) 0) as [H0|H0].
    + left. split; [exact H0|]. unfold dispatch_pop, empty. rewrite H0. reflexivity.
    + right. split; [lia|].
      destruct (dispatch_pop_in_range s b Hb) as (s' & Hpop & _ & _ & Hc' & _);
        try lia.
      eauto.
  - destruct H as (_ & Hc & _). left. split; [exact Hc|].
    unfold dispatch_pop, empty. rewrite Hc. reflexivity.
Qed.

Lemma pop_waits_or_returns_witness :
  (message_count boot = 0 /\ dispatch_pop boot = Waits) /\
  exists m s', dispatch_pop wrapped3 = Ret (m, s') /\
               message_count s' = message_count wrapped3 - 1.
Proof.
  split.
  - destruct (pop_waits_or_returns 2 16 [] boot eq_refl eq_refl) as [H|[H _]];
      [exact H|discriminate H].
  - destruct (pop_waits_or_returns 2 16 wrap3 wrapped3 eq_refl wrapped3_reached)
      as [[H _]|[_ H]]; [discriminate H|exact H].
Defined.

Lemma append_store_ret e msg s r s' cs :
  append_store e msg s = Ret (r, s', cs) -> r = 0 \/ r = -1.
Proof.
  unfold append_store. intros H. repeat case_match; simplify_eq; auto.
Qed.

(** X3.  In a reachable state [buffer_append] returns, with 0 or -1,
    exactly when the buffer has storage.  Before [buffer_init] and after
    [buffer_destroy] the fullness test of C10 lets the call through to
    the store, which indexes the NULL array: undefined behaviour. *)
Theorem append_returns_iff_initialized lo hi ops s e msg :
  hi < 2 ^ 31 ->
  run lo hi ops boot = Ret s ->
  (current_capacity s = 0 /\ buffer_append lo hi e msg s = Undefined) \/
  (0 < current_capacity s /\
   exists r s' cs, buffer_append lo hi e msg s = Ret (r, s', cs) /\
                   (r = 0 \/ r = -1)).
Proof.
  intros Hhi H. apply run_from_boot_sane in H; [|exact Hhi].
  pose proof H as Hs. unfold sane in H. destruct (buffer s) as [b|] eqn:Hb.
  - right. split; [lia|].
    apply (append_resize_sane lo hi e), (append_level_sane hi e) in Hs.
    destruct (append_store_returns hi e msg
                (w_agentd_state_update INCREMENT_MSG_COUNT
                   (append_level e (fst (append_resize lo hi e s)))) Hs)
      as (r & s' & cs & Hst).
    { simpl. destruct (append_level_frame e (fst (append_resize lo hi e s)))
        as (_ & _ & _ & -> & _).
      unfold append_resize, resize_internal_buffer.
      repeat case_match; simpl; congruence. }
    assert (buffer_append lo hi e msg s
            = Ret (r, s', snd (append_resize lo hi e s) ++ cs)) as Happ.
    { unfold buffer_append. destruct (append_resize lo hi e s) as [s1 g].
      simpl in *. rewrite Hst. reflexivity. }
    exists r, s', (snd (append_resize lo hi e s) ++ cs). split; [exact Happ|].
    eapply append_store_ret. exact Hst.
  - destruct H as (Hcap & Hc & Hi & Hj & Hst). left. split; [exact Hcap|].
    assert (warn s (message_count s) (current_capacity s) = false) as Hw
        by (unfold warn; rewrite Hcap; reflexivity).
    assert (full (message_count s) (current_capacity s) = false) as Hf
        by (rewrite Hc, Hcap; reflexivity).
    unfold buffer_append.
    assert (append_resize lo hi e s = (s, [])) as ->
        by (unfold append_resize; rewrite Hst, Hw; reflexivity).
    rewrite append_level_normal_idle by assumption.
    unfold append_store. simpl. rewrite Hf, Hb. reflexivity.
Qed.

Lemma append_returns_iff_initialized_witness :
  buffer_append 2 16 (ok_at 0) "x" (buffer_destroy wrapped3) = Undefined /\
  exists r s' cs, buffer_append 2 16 (ok_at 0) "g" wrapped3 = Ret (r, s', cs) /\
                  (r = 0 \/ r = -1).
Proof.
  split.
  - destruct (append_returns_iff_initialized 2 16 (wrap3 ++ [Op_destroy])
                (buffer_destroy wrapped3) (ok_at 0) "x" eq_refl eq_refl)
      as [[_ H]|[H _]]; [exact H|discriminate H].
  - destruct (append_returns_iff_initialized 2 16 wrap3 wrapped3 (ok_at 0) "g"
                eq_refl wrapped3_reached)
      as [[H _]|[_ H]]; [discriminate H|exact H].
Defined.

(** ** The ring as a first-in first-out queue *)

Lemma mod_add_distinct cap t k n :
  0 <= k < n -> n < cap -> (t + k) mod cap <> (t + n) mod cap.
Proof.
  intros Hk Hn H.
  assert ((t + n - (t + k)) mod cap = 0) as H0.
  { rewrite Zminus_mod, H, Z.sub_diag. apply Z.mod_0_l. lia. }
  replace (t + n - (t + k)) with (n - k) in H0 by lia.
  rewrite Z.mod_small in H0 by lia. lia.
Qed.

Lemma window_S b cap t n :
  window b cap t (S n) = window b cap t n ++ [slot_at b cap t n].
Proof. unfold window. rewrite seq_S, map_app. reflexivity. Qed.

Lemma window_length b cap t n : length (window b cap t n) = n.
Proof. unfold window. rewrite length_map, length_seq. reflexivity. Qed.

(** A write to a cell outside the window does not change the window. *)
Lemma window_insert_outside b cap t n idx x :
  (forall k, (k < n)%nat -> Z.to_nat ((t + Z.of_nat k) mod cap) <> idx) ->
  window (<[idx:=x]> b) cap t n = window b cap t n.
Proof.
  intros H. unfold window. apply map_ext_in. intros k Hk.
  apply in_seq in Hk. unfold slot_at.
  rewrite list_lookup_insert_ne; [reflexivity|].
  intros E. eapply H; [|symmetry; exact E]. lia.
Qed.

(** The window after its first cell. *)
Lemma window_head b cap t n :
  0 < cap ->
  window b cap t (S n) = slot_at b cap t 0 :: window b cap ((t + 1) mod cap) n.
Proof.
  intros Hcap. unfold window. simpl. f_equal.
  rewrite <- seq_shift, map_map. apply map_ext. intros k.
  unfold slot_at. do 3 f_equal.
  rewrite Z.add_mod_idemp_l by lia. f_equal. lia.
Qed.

(** A window that ends before the end of the array does not notice that
    the array gets longer. *)
Lemma window_extend b ext cap cap' t n :
  Z.of_nat (length b) = cap -> cap <= cap' ->
  0 <= t -> t + Z.of_nat n <= cap ->
  window (b ++ ext) cap' t n = window b cap t n.
Proof.
  intros Hlen Hle Ht Hn. unfold window. apply map_ext_in. intros k Hk.
  apply in_seq in Hk. unfold slot_at.
  rewrite !Z.mod_small by lia. rewrite lookup_app_l by lia. reflexivity.
Qed.

Lemma ring_wf_live s :
  ring_wf s ->
  length (live s) = Z.to_nat (message_count s) /\
  0 <= message_count s < current_capacity s.
Proof.
  intros (b & Hb & _ & _ & _ & (Hc & _)). unfold live. rewrite Hb.
  rewrite window_length. lia.
Qed.

(** The store part of [buffer_append] on a well-formed ring: a stored
    message goes to the back of the queue, a dropped one leaves the
    queue alone, and the ring stays well formed. *)
Lemma append_store_live e msg s r s' cs :
  ring_wf s ->
  append_store e msg s = Ret (r, s', cs) ->
  ring_wf s' /\
  ((r = 0 /\ live s' = live s ++ [Some msg]) \/ (r = -1 /\ live s' = live s)).
Proof.
  intros Hwf H. pose proof Hwf as (b & Hb & Hlen & Hcap & Hj & (Hc & Hi)).
  unfold append_store in H.
  destruct (full (message_count s) (current_capacity s)) eqn:Hfull.
  { simplify_eq. auto. }
  unfold full in Hfull. rewrite uint_small in Hfull by lia. bool_hyps.
  assert (0 <= i s < current_capacity s) as Hir.
  { rewrite <- Hi. apply Z.mod_pos_bound. lia. }
  rewrite Hb in H.
  destruct (Z.leb_spec 0 (i s)); [|lia].
  destruct (Z.ltb_spec (i s) (Z.of_nat (length b))); [|lia]. simpl in H.
  assert (forall k, (k < Z.to_nat (message_count s))%nat ->
            Z.to_nat ((j s + Z.of_nat k) mod current_capacity s) <> Z.to_nat (i s))
    as Hout.
  { intros k Hk E. apply Z2Nat.inj in E; [| |lia].
    - rewrite <- Hi in E. revert E. apply mod_add_distinct; lia.
    - apply Z.mod_pos_bound. lia. }
  destruct (strdup_ok e).
  - unfold forward in H.
    destruct (Z.eqb_spec (current_capacity s) 0); [lia|]. simplify_eq.
    rewrite list_insert_insert_eq.
    rewrite (uint_small (i s + 1)), (uint_small (message_count s + 1)) by lia.
    pose proof (Z.mod_pos_bound (i s + 1) (current_capacity s) ltac:(lia)).
    rewrite sint_small by lia.
    split.
    + eexists. simpl. split; [reflexivity|]. rewrite length_insert.
      unfold ring_inv. simpl. repeat split; try lia.
      rewrite <- Hi. rewrite Z.add_mod_idemp_l by lia. f_equal. lia.
    + left. split; [reflexivity|]. unfold live. simpl. rewrite Hb.
      replace (Z.to_nat (message_count s + 1)) with (S (Z.to_nat (message_count s)))
        by lia.
      rewrite window_S, window_insert_outside by exact Hout. f_equal.
      unfold slot_at. rewrite Z2Nat.id by lia. rewrite Hi.
      rewrite list_lookup_insert_eq by lia. reflexivity.
  - simplify_eq. split.
    + eexists. simpl. split; [reflexivity|]. rewrite length_insert.
      unfold ring_inv. simpl. repeat split; lia.
    + right. split; [reflexivity|]. unfold live. simpl. rewrite Hb.
      apply window_insert_outside. exact Hout.
Qed.

(** The pop step on a well-formed ring takes the front of the queue. *)
Lemma dispatch_pop_live s m s' :
  ring_wf s ->
  dispatch_pop s = Ret (m, s') ->
  ring_wf s' /\ live s = m :: live s'.
Proof.
  intros (b & Hb & Hlen & Hcap & Hj & (Hc & Hi)) H.
  pose proof (dispatch_pop_ring _ _ _ H) as (Ei & Ecap & Hne & Ef & Ec).
  destruct (dispatch_pop_in_range s b Hb) as (s1 & Hpop & Hb1 & Hj1 & Hc1 & _);
    try lia.
  rewrite Hpop in H. simplify_eq.
  rewrite (uint_small (j s + 1)) in Hj1 by lia.
  pose proof (Z.mod_pos_bound (j s + 1) (current_capacity s) ltac:(lia)).
  rewrite sint_small in Hj1 by lia.
  split.
  - exists (<[Z.to_nat (j s):=None]> b). rewrite length_insert.
    unfold ring_inv. rewrite Ecap, Ei, Hj1, Hc1.
    repeat split; try lia; try assumption.
    rewrite <- Hi. rewrite Z.add_mod_idemp_l by lia. f_equal. lia.
  - unfold live. rewrite Hb, Hb1, Ecap, Hj1, Hc1.
    replace (Z.to_nat (message_count s))
      with (S (Z.to_nat (message_count s - 1))) by lia.
    rewrite window_head by lia. f_equal.
    + unfold slot_at. rewrite Z.add_0_r, Z.mod_small by lia. reflexivity.
    + symmetry. apply window_insert_outside. intros k Hk E.
      apply Z2Nat.inj in E; [| |lia].
      * rewrite Z.add_mod_idemp_l in E by lia.
        replace (j s + 1 + Z.of_nat k) with (j s + (Z.of_nat k + 1)) in E by lia.
        pose proof (mod_add_distinct (current_capacity s) (j s) 0 (Z.of_nat k + 1)
                      ltac:(lia) ltac:(lia)) as Hd.
        rewrite Z.add_0_r, (Z.mod_small (j s)) in Hd by lia. congruence.
      * apply Z.mod_pos_bound. lia.
Qed.

Lemma ring_wf_ext s s' :
  buffer s' = buffer s -> current_capacity s' = current_capacity s ->
  i s' = i s -> j s' = j s -> message_count s' = message_count s ->
  ring_wf s -> ring_wf s' /\ live s' = live s.
Proof.
  unfold ring_wf, ring_inv, live. intros -> -> -> -> ->. auto.
Qed.

(** The growth block keeps the queue, provided the live region does not
    reach the end of the array when the array grows. *)
Lemma append_resize_live lo hi e s :
  hi < 2147483648 ->
  ring_wf s ->
  current_capacity (fst (append_resize lo hi e s)) = current_capacity s \/
  j s + message_count s < current_capacity s ->
  ring_wf (fst (append_resize lo hi e s)) /\
  live (fst (append_resize lo hi e s)) = live s.
Proof.
  intros Hhi Hwf Hor. pose proof Hwf as (b & Hb & Hlen & Hcap & Hj & (Hc & Hi)).
  unfold append_resize in *.
  destruct (match state s with
            | NORMAL => warn s (message_count s) (current_capacity s)
            | WARNING => true
            | _ => false
            end); [|auto].
  destruct (Z.ltb_spec (current_capacity s) (new_desired_capacity lo hi s)) as [Hlt|];
    [|auto].
  pose proof (new_desired_capacity_le_max lo hi s) as Hmax.
  destruct (realloc_ok e).
  - rewrite (resize_internal_buffer_grow hi _ s b Hb Hlen) in * by lia.
    simpl in *. destruct Hor as [Hsame|Hroom]; [lia|].
    split.
    + eexists. simpl. split; [reflexivity|].
      rewrite length_app, length_replicate. unfold ring_inv. simpl.
      repeat split; try lia.
      rewrite Z.mod_small by lia. rewrite Z.mod_small in Hi by lia. exact Hi.
    + unfold live. simpl. rewrite Hb. apply window_extend; lia.
  - assert (resize_internal_buffer hi false (new_desired_capacity lo hi s) s = (-1, s))
      as -> by (unfold resize_internal_buffer; destruct (_ || _); reflexivity).
    auto.
Qed.

Lemma buffer_append_live lo hi e msg s r s' cs :
  hi < 2147483648 ->
  ring_wf s ->
  buffer_append lo hi e msg s = Ret (r, s', cs) ->
  current_capacity s' = current_capacity s \/
  j s + message_count s < current_capacity s ->
  ring_wf s' /\
  ((r = 0 /\ live s' = live s ++ [Some msg]) \/ (r = -1 /\ live s' = live s)).
Proof.
  intros Hhi Hwf H Hor.
  pose proof (buffer_append_level _ _ _ _ _ _ _ _ H) as (_ & _ & _ & Hcap').
  apply buffer_append_inv in H as (cs' & H & _).
  destruct (append_level_frame e (fst (append_resize lo hi e s)))
    as (Li & Lj & Lc & Lb & Lcap & _).
  simpl in *. rewrite Lcap in Hcap'. rewrite Hcap' in Hor.
  destruct (append_resize_live lo hi e s Hhi Hwf Hor) as (Hwf1 & Hlive1).
  destruct (ring_wf_ext (fst (append_resize lo hi e s))
              (w_agentd_state_update INCREMENT_MSG_COUNT
                 (append_level e (fst (append_resize lo hi e s))))
              Lb Lcap Li Lj Lc Hwf1) as (Hwf2 & Hlive2).
  destruct (append_store_live _ _ _ _ _ _ Hwf2 H) as (Hwf' & Hlive').
  split; [exact Hwf'|]. rewrite Hlive2, Hlive1 in Hlive'. exact Hlive'.
Qed.

(** X4.  [buffer_append] on a well-formed ring is an enqueue.  When the
    call keeps the capacity, or grows the array while the live region
    ends before the end of the array, the ring stays well formed, and
    the queue it stands for is the old one with the copy of the message
    added at the back (return value 0) or is unchanged (return value
    -1). *)
Theorem append_enqueues lo hi e msg s r s' cs :
  hi < 2 ^ 31 ->
  ring_wf s ->
  buffer_append lo hi e msg s = Ret (r, s', cs) ->
  current_capacity s' = current_capacity s \/
  j s + message_count s < current_capacity s ->
  ring_wf s' /\
  ((r = 0 /\ live s' = live s ++ [Some msg]) \/ (r = -1 /\ live s' = live s)).
Proof. apply buffer_append_live. Qed.

Lemma append_enqueues_witness :
  exists s',
    buffer_append 2 16 (ok_at 0) "e" shifted3
      = Ret (0, s', [Call_resize_internal_buffer 10; Call_w_cond_signal]) /\
    live shifted3 = [Some "b"; Some "c"; Some "d"] /\
    live s' = [Some "b"; Some "c"; Some "d"; Some "e"].
Proof.
  assert (ring_wf shifted3) as Hwf.
  { eexists. split; [reflexivity|]. unfold ring_inv.
    repeat split; (reflexivity || discriminate). }
  eexists. split; [vm_compute; reflexivity|]. split; [reflexivity|].
  destruct (append_enqueues 2 16 (ok_at 0) "e" shifted3 0 _
              [Call_resize_internal_buffer 10; Call_w_cond_signal]
              eq_refl Hwf eq_refl (or_intror eq_refl))
    as (_ & [[_ H]|[H _]]); [exact H|discriminate H].
Defined.

(** X5.  The pop step on a well-formed ring is a dequeue: the message
    it hands out is the front of the queue, the rest of the queue stays
    in order, and the ring stays well formed. *)
Theorem pop_dequeues s m s' :
  ring_wf s ->
  dispatch_pop s = Ret (m, s') ->
  ring_wf s' /\ live s = m :: live s'.
Proof. apply dispatch_pop_live. Qed.

Lemma pop_dequeues_witness :
  exists s',
    dispatch_pop wrapped3 = Ret (Some "d", s') /\
    live wrapped3 = Some "d" :: live s' /\
    live s' = [Some "e"; Some "f"].
Proof.
  assert (ring_wf wrapped3) as Hwf.
  { eexists. split; [reflexivity|]. unfold ring_inv.
    repeat split; (reflexivity || discriminate). }
  eexists. split; [vm_compute; reflexivity|]. split; [|reflexivity].
  exact (proj2 (pop_dequeues wrapped3 (Some "d") _ Hwf eq_refl)).
Defined.

Lemma pop_n_live (n : nat) :
  forall s, ring_wf s -> n = Z.to_nat (message_count s) ->
            exists s', pop_n n s = Ret (live s, s') /\
                       ring_wf s' /\ message_count s' = 0.
Proof.
  induction n as [|n IH]; intros s Hwf Hn.
  - pose proof Hwf as (b & Hb & _ & _ & _ & (Hc & _)).
    exists s. simpl. unfold live. rewrite Hb, <- Hn. repeat split; auto. lia.
  - pose proof Hwf as (b & Hb & Hlen & Hcap & Hj & (Hc & Hi)).
    destruct (dispatch_pop_in_range s b Hb) as (s1 & Hpop & _ & _ & Hc1 & _);
      try lia.
    destruct (dispatch_pop_live _ _ _ Hwf Hpop) as (Hwf1 & Hlive).
    destruct (IH s1 Hwf1 ltac:(lia)) as (s2 & Hrest & Hwf2 & Hc2).
    exists s2. simpl. rewrite Hpop. simpl. rewrite Hrest. simpl.
    rewrite Hlive. auto.
Qed.

(** X6.  Draining a well-formed ring: as many pop steps as there are
    messages all return, hand out the whole queue front to back, wrapped
    around the end of the array or not, and leave the buffer empty, so
    that a further pop waits. *)
Theorem drain_returns_queue_in_order s :
  ring_wf s ->
  exists s',
    pop_n (Z.to_nat (message_count s)) s = Ret (live s, s') /\
    message_count s' = 0 /\ live s' = [] /\ dispatch_pop s' = Waits.
Proof.
  intros Hwf. destruct (pop_n_live _ s Hwf eq_refl) as (s' & H & Hwf' & Hc).
  exists s'. split; [exact H|]. split; [exact Hc|]. split.
  - destruct Hwf' as (b & Hb & _). unfold live. rewrite Hb, Hc. reflexivity.
  - unfold dispatch_pop, empty. rewrite Hc. reflexivity.
Qed.

Lemma drain_returns_queue_in_order_witness :
  exists s',
    pop_n 3 wrapped3 = Ret ([Some "d"; Some "e"; Some "f"], s') /\
    message_count s' = 0.
Proof.
  assert (ring_wf wrapped3) as Hwf.
  { eexists. split; [reflexivity|]. unfold ring_inv.
    repeat split; (reflexivity || discriminate). }
  destruct (drain_returns_queue_in_order wrapped3 Hwf) as (s' & H & Hc & _).
  exists s'. split; [exact H | exact Hc].
Defined.

Lemma run_io_capacity_mono lo hi ops :
  forall s p a s',
    forallb in_lifetime ops = true ->
    run_io lo hi ops s = Ret (p, a, s') ->
    current_capacity s <= current_capacity s'.
Proof.
  induction ops as [|o ops IH]; intros s p a s' Hops H; simpl in *.
  - simplify_eq. lia.
  - apply andb_prop in Hops as [Ho Hops].
    destruct o as [al c|e msg| | |]; try discriminate.
    + destruct (buffer_append lo hi e msg s) as [[[r s1] cs]| | |] eqn:E;
        simpl in H; try discriminate.
      destruct (run_io lo hi ops s1) as [[[p1 a1] s2]| | |] eqn:E1;
        simpl in H; simplify_eq.
      apply buffer_append_capacity in E. apply IH in E1; [|exact Hops]. lia.
    + destruct (dispatch_pop s) as [[m s1]| | |] eqn:E; simpl in H; try discriminate.
      destruct (run_io lo hi ops s1) as [[[p1 a1] s2]| | |] eqn:E1;
        simpl in H; simplify_eq.
      apply dispatch_pop_level in E as (_ & _ & _ & Ec & _).
      apply IH in E1; [|exact Hops]. lia.
    + apply IH in H; [|exact Hops].
      destruct (dispatch_notify_frame s) as (_ & _ & _ & _ & _ & Ec & _).
      simpl in *. lia.
Qed.

Lemma run_io_conserves lo hi ops :
  hi < 2147483648 ->
  forall s p a s',
    ring_wf s ->
    forallb in_lifetime ops = true ->
    run_io lo hi ops s = Ret (p, a, s') ->
    current_capacity s' = current_capacity s ->
    ring_wf s' /\ live s ++ map Some a = p ++ live s'.
Proof.
  intros Hhi. induction ops as [|o ops IH]; intros s p a s' Hwf Hops H Hcap;
    simpl in *.
  - simplify_eq. split; [exact Hwf|]. simpl. apply app_nil_r.
  - apply andb_prop in Hops as [Ho Hops].
    destruct o as [al c|e msg| | |]; try discriminate.
    + destruct (buffer_append lo hi e msg s) as [[[r s1] cs]| | |] eqn:E;
        simpl in H; try discriminate.
      destruct (run_io lo hi ops s1) as [[[p1 a1] s2]| | |] eqn:E1;
        simpl in H; simplify_eq.
      pose proof (buffer_append_capacity _ _ _ _ _ _ _ _ E) as Hc1.
      pose proof (run_io_capacity_mono _ _ _ _ _ _ _ Hops E1) as Hc2.
      destruct (buffer_append_live _ _ _ _ _ _ _ _ Hhi Hwf E ltac:(left; lia))
        as (Hwf1 & Hlive).
      destruct (IH _ _ _ _ Hwf1 Hops E1 ltac:(lia)) as (Hwf' & Hrest).
      split; [exact Hwf'|].
      destruct Hlive as [[-> Hl]|[-> Hl]]; rewrite Hl in Hrest; simpl.
      * rewrite <- Hrest, <- app_assoc. reflexivity.
      * exact Hrest.
    + destruct (dispatch_pop s) as [[m s1]| | |] eqn:E; simpl in H; try discriminate.
      destruct (run_io lo hi ops s1) as [[[p1 a1] s2]| | |] eqn:E1;
        simpl in H; simplify_eq.
      pose proof (dispatch_pop_level _ _ _ E) as (_ & _ & _ & Hc1 & _).
      destruct (dispatch_pop_live _ _ _ Hwf E) as (Hwf1 & Hl).
      destruct (IH _ _ _ _ Hwf1 Hops E1 ltac:(lia)) as (Hwf' & Hrest).
      split; [exact Hwf'|]. rewrite Hl. simpl. rewrite Hrest. reflexivity.
    + destruct (dispatch_notify_frame s) as (Fi & Fj & Fc & _ & Fb & Fcap & _).
      simpl in *.
      destruct (ring_wf_ext s (snd (dispatch_notify s)) Fb Fcap Fi Fj Fc Hwf)
        as (Hwf1 & Hlive).
      destruct (IH _ _ _ _ Hwf1 Hops H ltac:(lia)) as (Hwf' & Hrest).
      split; [exact Hwf'|]. rewrite <- Hlive. exact Hrest.
Qed.

(** X7.  Conservation along a run.  Start from a well-formed ring and
    run any sequence of appends, pop steps and notification steps that
    ends at the capacity it started with.  Then what was in the queue,
    followed by the messages of the appends that returned 0, equals what
    the pop steps handed out, followed by what is in the queue at the
    end: nothing is lost, duplicated or reordered, and the dropped
    appends leave no trace. *)
Theorem run_conserves_messages lo hi ops s p a s' :
  hi < 2 ^ 31 ->
  ring_wf s ->
  forallb in_lifetime ops = true ->
  run_io lo hi ops s = Ret (p, a, s') ->
  current_capacity s' = current_capacity s ->
  ring_wf s' /\ live s ++ map Some a = p ++ live s'.
Proof. intros Hhi. apply run_io_conserves. exact Hhi. Qed.

Lemma run_conserves_messages_witness :
  exists s',
    run_io 2 5 [Op_append (ok_at 0) "g"; Op_append (ok_at 0) "h";
                Op_pop; Op_notify; Op_pop] wrapped3
      = Ret ([Some "d"; Some "e"], ["g"], s') /\
    live wrapped3 ++ map Some ["g"] = [Some "d"; Some "e"] ++ live s'.
Proof.
  assert (ring_wf wrapped3) as Hwf.
  { eexists. split; [reflexivity|]. unfold ring_inv.
    repeat split; (reflexivity || discriminate). }
  eexists. split; [vm_compute; reflexivity|].
  refine (proj2 (run_conserves_messages 2 5
                   [Op_append (ok_at 0) "g"; Op_append (ok_at 0) "h";
                    Op_pop; Op_notify; Op_pop] wrapped3 _ _ _
                   _ Hwf _ _ _));
    vm_compute; reflexivity.
Defined.

(** ** The reported length *)

(** The return value of [buffer_append] tells whether the count went
    up. *)
Lemma buffer_append_count lo hi e msg s r s' cs :
  buffer_append lo hi e msg s = Ret (r, s', cs) ->
  (r = 0 /\ message_count s' = uint (message_count s + 1)) \/
  (r = -1 /\ message_count s' = message_count s).
Proof.
  intros H. apply buffer_append_inv in H as (cs' & H & _).
  destruct (append_level_frame e (fst (append_resize lo hi e s)))
    as (_ & _ & Lc & _).
  destruct (append_resize_frame lo hi e s) as (_ & _ & Rc & _).
  simpl in *. unfold append_store in H.
  repeat case_match; simplify_eq; simpl; rewrite ?Lc, ?Rc; auto.
Qed.

(** X8.  In a reachable state [w_agentd_get_buffer_lenght] returns -1
    exactly when the buffer has no storage, and otherwise the number of
    messages held, which is the length of the queue and lies between 0
    and the capacity minus one.  From there an append that returns 0
    raises it by one, an append that returns -1 leaves it, and a pop
    step lowers it by one. *)
Theorem buffer_length_tracks_queue lo hi ops s :
  hi < 2 ^ 31 ->
  run lo hi ops boot = Ret s ->
  ((current_capacity s = 0 /\ w_agentd_get_buffer_lenght s = -1) \/
   (0 < current_capacity s /\
    w_agentd_get_buffer_lenght s = message_count s /\
    w_agentd_get_buffer_lenght s = Z.of_nat (length (live s)) /\
    0 <= w_agentd_get_buffer_lenght s <= current_capacity s - 1)) /\
  (forall e msg r s' cs,
     buffer_append lo hi e msg s = Ret (r, s', cs) ->
     w_agentd_get_buffer_lenght s' =
       w_agentd_get_buffer_lenght s + (if r =? 0 then 1 else 0)) /\
  (forall m s',
     dispatch_pop s = Ret (m, s') ->
     w_agentd_get_buffer_lenght s' = w_agentd_get_buffer_lenght s - 1).
Proof.
  intros Hhi H. apply run_from_boot_sane in H; [|exact Hhi].
  assert (forall t, sane hi t -> buffer t <> None ->
            0 < current_capacity t <= hi /\
            w_agentd_get_buffer_lenght t = message_count t /\
            0 <= message_count t <= current_capacity t - 1) as Hlen.
  { intros t Ht Hb. unfold sane in Ht. destruct (buffer t); [|congruence].
    destruct Ht as (_ & Hcap & _ & _ & Hc & _).
    unfold w_agentd_get_buffer_lenght.
    destruct (Z.ltb_spec 0 (current_capacity t)); [|lia].
    rewrite sint_small by lia. lia. }
  split; [|split].
  - destruct (buffer s) as [b|] eqn:Hb.
    + right. destruct (Hlen s H) as (Hcap & Hl & Hc); [congruence|].
      split; [lia|]. split; [exact Hl|]. split; [|lia].
      rewrite Hl. unfold live. rewrite Hb, window_length. lia.
    + left. unfold sane in H. rewrite Hb in H. destruct H as (Hcap & _).
      unfold w_agentd_get_buffer_lenght. rewrite Hcap. auto.
  - intros e msg r s' cs Happ.
    pose proof (buffer_append_sane _ _ _ _ _ _ _ _ Hhi H Happ) as Hs'.
    assert (buffer s <> None) as Hb.
    { intros Hb. unfold sane in H. rewrite Hb in H.
      destruct H as (Hcap & Hc & _ & _ & Hst).
      revert Happ. unfold buffer_append.
      assert (append_resize lo hi e s = (s, [])) as ->.
      { unfold append_resize, warn. rewrite Hst, Hcap. reflexivity. }
      rewrite append_level_normal_idle;
        [|exact Hst|rewrite Hc, Hcap; reflexivity
         |unfold warn; rewrite Hcap; reflexivity].
      unfold append_store. simpl. rewrite Hc, Hcap, Hb. discriminate. }
    assert (buffer s' <> None) as Hb'.
    { pose proof (buffer_append_capacity _ _ _ _ _ _ _ _ Happ) as Hc.
      destruct (Hlen s H Hb) as (Hcap & _).
      intros E. unfold sane in Hs'. rewrite E in Hs'. lia. }
    destruct (Hlen s H Hb) as (Hcap & -> & Hc).
    destruct (Hlen s' Hs' Hb') as (Hcap' & -> & Hc').
    destruct (buffer_append_count _ _ _ _ _ _ _ _ Happ)
      as [(-> & Ec) | (-> & Ec)]; simpl.
    + rewrite Ec. apply uint_small. lia.
    + lia.
  - intros m s' Hpop.
    pose proof (dispatch_pop_sane _ _ _ _ Hhi H Hpop) as Hs'.
    pose proof (dispatch_pop_ring _ _ _ Hpop) as (_ & Ecap & Hne & _ & Ec).
    assert (buffer s <> None) as Hb.
    { intros Hb. unfold sane in H. rewrite Hb in H. lia. }
    destruct (Hlen s H Hb) as (Hcap & -> & Hc).
    assert (buffer s' <> None) as Hb'.
    { intros E. unfold sane in Hs'. rewrite E in Hs'. lia. }
    destruct (Hlen s' Hs' Hb') as (_ & -> & _).
    rewrite Ec. apply uint_small. lia.
Qed.

Lemma buffer_length_tracks_queue_witness :
  w_agentd_get_buffer_lenght (buffer_destroy wrapped3) = -1 /\
  w_agentd_get_buffer_lenght wrapped3 = Z.of_nat (length (live wrapped3)) /\
  exists s',
    buffer_append 2 16 (ok_at 0) "g" wrapped3
      = Ret (0, s', [Call_resize_internal_buffer 10; Call_w_cond_signal]) /\
    w_agentd_get_buffer_lenght s' = w_agentd_get_buffer_lenght wrapped3 + 1.
Proof.
  split; [|split].
  - destruct (buffer_length_tracks_queue 2 16 (wrap3 ++ [Op_destroy])
                (buffer_destroy wrapped3) eq_refl eq_refl)
      as ([[_ H]|[H _]] & _); [exact H|discriminate H].
  - destruct (buffer_length_tracks_queue 2 16 wrap3 wrapped3 eq_refl wrapped3_reached)
      as ([[H _]|(_ & _ & H & _)] & _); [discriminate H|exact H].
  - eexists. split; [vm_compute; reflexivity|].
    destruct (buffer_length_tracks_queue 2 16 wrap3 wrapped3 eq_refl wrapped3_reached)
      as (_ & H & _).
    refine (H (ok_at 0) "g" 0 _ [Call_resize_internal_buffer 10; Call_w_cond_signal] _).
    vm_compute. reflexivity.
Defined.

(** ** More on the level machine *)





(** On a full ring of more than one cell the fill is 100 percent, so
    with levels within their bounds the ring is neither normal nor below
    the warn level. *)
Lemma full_ring_levels s count cap :
  1 < cap -> cap * 100 < 4294967296 ->
  warn_level s <= 100 -> normal_level s < 100 ->
  full count cap = true ->
  normal s count cap = false /\ nowarn s count cap = false /\
  warn s count cap = true.
Proof.
  intros Hcap Hbig Hw Hn Hfull. unfold full in Hfull.
  rewrite uint_small in Hfull by lia. apply Z.eqb_eq in Hfull. subst count.
  unfold normal, nowarn, warn, fill.
  destruct (Z.leb_spec cap 1); [lia|].
  rewrite uint_small by lia.
  rewrite (Z.mul_comm (cap - 1) 100), Z.div_mul by lia.
  repeat split; [apply Z.leb_gt | apply Z.ltb_ge | apply Z.leb_le]; lia.
Qed.

(** X11.  No silent drops.  In a reachable state of a buffer with at
    least one usable cell, an append whose copy could be allocated
    returns -1 only because the ring is full, and it then leaves the
    level machine in Full or in Flood, never in Normal or Warning. *)
Theorem fullness_drop_ends_in_full_or_flood lo hi ops s e msg s' cs :
  hi * 100 < 2 ^ 32 ->
  run lo hi ops boot = Ret s ->
  strdup_ok e = true ->
  buffer_append lo hi e msg s = Ret (-1, s', cs) ->
  1 < current_capacity s' ->
  message_count s' = current_capacity s' - 1 /\
  (state s' = FULL \/ state s' = FLOOD).
Proof.
  intros Hhi Hrun Hdup H Hcap.
  assert (hi < 2147483648) as Hhi' by lia.
  apply run_from_boot_sane in Hrun; [|exact Hhi'].
  pose proof (buffer_append_sane _ _ _ _ _ _ _ _ Hhi' Hrun H) as Hs'.
  pose proof (buffer_append_level _ _ _ _ _ _ _ _ H) as (Lst & _ & _ & Lcap).
  simpl in *.
  apply (append_resize_sane lo hi e) in Hrun.
  set (s1 := fst (append_resize lo hi e s)) in *.
  destruct (append_level_frame e s1) as (Li & Lj & Lc & Lb & Lcap' & _).
  simpl in *.
  apply buffer_append_inv in H as (cs' & H & _). fold s1 in H.
  assert (full (message_count s1) (current_capacity s1) = true /\ s' =
          w_agentd_state_update INCREMENT_MSG_COUNT (append_level e s1))
    as (Hfull & ->).
  { revert H. unfold append_store, forward. simpl. rewrite Lc, Lcap', Hdup.
    repeat case_match; intros; simplify_eq; auto. }
  simpl in *. rewrite Lcap' in *.
  unfold sane in Hrun. destruct (buffer s1) as [b|].
  2:{ destruct Hrun as (Hz & _). lia. }
  destruct Hrun as (_ & Hc1 & _ & _ & Hcnt & Hw & Hn & _).
  destruct (full_ring_levels s1 (message_count s1) (current_capacity s1))
    as (Hnorm & Hnowarn & Hwarn); try lia; [exact Hfull|].
  split.
  - rewrite Lc. unfold full in Hfull. rewrite uint_small in Hfull by lia.
    apply Z.eqb_eq in Hfull. exact Hfull.
  - destruct (full_ring_levels (set_end (now e) s1)
                (message_count s1) (current_capacity s1))
      as (Hnorm' & Hnowarn' & _); simpl; try lia; [exact Hfull|].
    unfold append_level.
    destruct (state s1) eqn:St; simpl;
      rewrite ?Hfull, ?Hnorm, ?Hnowarn, ?Hnorm', ?Hnowarn'; simpl;
      repeat case_match; simpl; rewrite ?St; auto.
Qed.

Lemma fullness_drop_ends_in_full_or_flood_witness :
  exists s',
    buffer_append 2 5 (ok_at 7) "e" warned4 = Ret (-1, s', []) /\
    message_count s' = current_capacity s' - 1 /\
    (state s' = FULL \/ state s' = FLOOD).
Proof.
  eexists. split; [vm_compute; reflexivity|].
  refine (fullness_drop_ends_in_full_or_flood 2 5 fill4 warned4 (ok_at 7) "e" _ []
            _ warned4_reached _ _ _); vm_compute; reflexivity.
Defined.

(** X12.  In Full the tolerance test comes first: an append that starts
    in Full ends in Flood exactly when the time of the call is at least
    [tolerance] after [start], whatever the fill has become.  It then
    sets the [flood] flag and keeps [start]. *)
Theorem full_escalates_iff_tolerance_elapsed lo hi e msg s r s' cs :
  buffer_append lo hi e msg s = Ret (r, s', cs) ->
  state s = FULL ->
  (state s' = FLOOD <-> tolerance s <= now e - start s) /\
  (state s' = FLOOD -> buff_flood (buff s') = true /\ start s' = start s).
Proof.
  intros H St.
  apply buffer_append_level in H as (-> & -> & -> & _).
  rewrite append_resize_skipped by auto. simpl.
  unfold append_level. rewrite St. simpl.
  destruct (Z.leb_spec (tolerance s) (now e - start s)).
  - simpl. split; [tauto|auto].
  - match goal with
    | |- (state ?x = FLOOD <-> _) /\ _ =>
        assert (state x <> FLOOD) as Hne
          by (repeat case_match; simpl; rewrite ?St; discriminate)
    end.
    split; [split; [tauto | lia] | tauto].
Qed.

Lemma full_escalates_iff_tolerance_elapsed_witness :
  (exists s', buffer_append 2 5 (ok_at 110) "f" full3 = Ret (0, s', [Call_w_cond_signal]) /\
              (state s' = FLOOD <-> tolerance full3 <= now (ok_at 110) - start full3)) /\
  (exists s', buffer_append 2 5 (ok_at 101) "f" full3 = Ret (0, s', [Call_w_cond_signal]) /\
              (state s' = FLOOD <-> tolerance full3 <= now (ok_at 101) - start full3)).
Proof.
  split; eexists; (split; [vm_compute; reflexivity|]).
  - refine (proj1 (full_escalates_iff_tolerance_elapsed 2 5 (ok_at 110) "f" full3 0 _
                     [Call_w_cond_signal] _ eq_refl)).
    vm_compute. reflexivity.
  - refine (proj1 (full_escalates_iff_tolerance_elapsed 2 5 (ok_at 101) "f" full3 0 _
                     [Call_w_cond_signal] _ eq_refl)).
    vm_compute. reflexivity.
Defined.

(** ** Initialisation and destruction *)

Lemma foldl_null_miss (l : list nat) :
  forall (b : list slot) k,
    ~ In k l -> foldl (fun acc x => <[x:=None]> acc) b l !! k = b !! k.
Proof.
  induction l as [|x l IH]; intros b k Hk; simpl; [reflexivity|].
  rewrite IH by (intros H; apply Hk; right; exact H).
  apply list_lookup_insert_ne. intros ->. apply Hk. left. reflexivity.
Qed.

Lemma foldl_null_hit (l : list nat) :
  forall (b : list slot) k,
    In k l -> (k < length b)%nat ->
    foldl (fun acc x => <[x:=None]> acc) b l !! k = Some None.
Proof.
  induction l as [|x l IH]; intros b k Hk Hlen; simpl; [destruct Hk|].
  destruct (in_dec Nat.eq_dec k l) as [Hin|Hnin].
  - apply IH; [exact Hin|]. rewrite length_insert. exact Hlen.
  - destruct Hk as [->|Hk]; [|contradiction].
    rewrite foldl_null_miss by exact Hnin.
    apply list_lookup_insert_eq. exact Hlen.
Qed.

(** The loop that frees every string leaves an array of NULLs. *)
Lemma null_fill_all (b : list slot) :
  null_fill 0 (Z.of_nat (length b)) b = replicate (length b) None.
Proof.
  apply list_eq. intros k.
  destruct (Nat.lt_ge_cases k (length b)) as [Hk|Hk].
  - rewrite lookup_replicate_2 by exact Hk. unfold null_fill.
    apply foldl_null_hit; [|exact Hk]. apply in_seq. lia.
  - rewrite !lookup_ge_None_2; [reflexivity| |].
    + rewrite length_replicate. exact Hk.
    + rewrite null_fill_length. exact Hk.
Qed.

(** Filling cells that are NULL already changes nothing. *)
Lemma null_fill_id from to (b : list slot) :
  (forall k, (Z.to_nat from <= k < Z.to_nat to)%nat -> b !! k = Some None) ->
  null_fill from to b = b.
Proof.
  intros H. apply list_eq. intros k. unfold null_fill.
  destruct (in_dec Nat.eq_dec k
              (seq (Z.to_nat from) (Z.to_nat to - Z.to_nat from))) as [Hin|Hnin].
  - pose proof Hin as Hr. apply in_seq in Hr.
    rewrite H by lia. apply foldl_null_hit; [exact Hin|].
    apply (lookup_lt_Some b k None). apply H. lia.
  - apply foldl_null_miss. exact Hnin.
Qed.

(** The array that [buffer_init] builds when it allocates: [d] NULLs. *)
Lemma init_array (b : list slot) (d : Z) :
  0 <= d ->
  (if Z.of_nat (length b) <? d
   then null_fill (Z.of_nat (length b)) d
          (realloc (Some (null_fill 0 (Z.of_nat (length b)) b)) d)
   else realloc (Some (null_fill 0 (Z.of_nat (length b)) b)) d)
  = replicate (Z.to_nat d) None.
Proof.
  intros Hd. rewrite null_fill_all.
  assert (realloc (Some (replicate (length b) None)) d = replicate (Z.to_nat d) None)
    as ->.
  { unfold realloc. simpl. rewrite take_replicate, length_replicate, <- replicate_add.
    f_equal. lia. }
  destruct (Z.ltb_spec (Z.of_nat (length b)) d); [|reflexivity].
  apply null_fill_id. intros k Hk. apply lookup_replicate_2. lia.
Qed.

(** X13.  A [buffer_init] that has to allocate (no storage yet, or a
    different capacity asked for) and returns has produced a fresh empty
    buffer: an array of [buflength + 1] cells that are all NULL, whatever
    the old array held, a capacity between 1 and the maximum, indices
    and count at 0, level Normal, no flag set, the configured levels
    stored, and an empty queue.  It can only return when the allocation
    succeeded. *)
Theorem buffer_init_fresh hi a c s s' :
  sane hi s ->
  buffer s = None \/ uint (buflength c + 1) <> current_capacity s ->
  buffer_init hi a c s = Ret s' ->
  a = true /\
  buffer s' = Some (replicate (Z.to_nat (uint (buflength c + 1))) None) /\
  current_capacity s' = uint (buflength c + 1) /\
  0 < current_capacity s' <= hi /\
  i s' = 0 /\ j s' = 0 /\ message_count s' = 0 /\ state s' = NORMAL /\
  buff s' = mkBuff false false false false /\
  warn_level s' = conf_warn_level c /\
  normal_level s' = conf_normal_level c /\
  tolerance s' = conf_tolerance c /\
  live s' = [].
Proof.
  intros Hs Hpath H.
  set (d := uint (buflength c + 1)) in *.
  assert (0 <= d) as Hd by (apply Z.mod_pos_bound; lia).
  assert (bool_decide (buffer s = None) || negb (d =? current_capacity s) = true)
    as Hb.
  { destruct Hpath as [->|Hne]; [reflexivity|].
    apply Z.eqb_neq in Hne. rewrite Hne. apply orb_true_r. }
  unfold buffer_init, getDefine_Int in H. fold d in H. rewrite Hb in H.
  assert (exists b, Z.of_nat (length b) = current_capacity s /\
                    match buffer s with
                    | Some b0 => set_buffer (Some (null_fill 0 (current_capacity s) b0)) s
                    | None => s
                    end = set_buffer
                            (if bool_decide (buffer s = None) then None
                             else Some (null_fill 0 (Z.of_nat (length b)) b)) s /\
                    (buffer s = None -> b = []))
    as (b & Hlen & Heq & Hnil).
  { unfold sane in Hs. destruct (buffer s) as [b|] eqn:Eb.
    - exists b. destruct Hs as (Hlen & _). rewrite Hlen.
      split; [reflexivity|]. split; [|discriminate].
      rewrite bool_decide_eq_false_2 by discriminate. reflexivity.
    - exists []. destruct Hs as (Hcap & _). rewrite Hcap.
      split; [reflexivity|]. split; [|reflexivity].
      rewrite bool_decide_eq_true_2 by reflexivity.
      destruct s; simpl in *; subst; reflexivity. }
  rewrite Heq in H. clear Heq.
  unfold resize_internal_buffer in H. simpl in H.
  destruct ((d =? 0) || (hi <? d)) eqn:Hbad; [discriminate|].
  destruct a; [|discriminate]. simpl in H. rewrite <- Hlen in H.
  assert ((if Z.of_nat (length b) <? d
           then null_fill (Z.of_nat (length b)) d
                  (realloc (if bool_decide (buffer s = None) then None
                            else Some (null_fill 0 (Z.of_nat (length b)) b)) d)
           else realloc (if bool_decide (buffer s = None) then None
                         else Some (null_fill 0 (Z.of_nat (length b)) b)) d)
          = replicate (Z.to_nat d) None) as Harr.
  { destruct (bool_decide (buffer s = None)) eqn:Hn.
    - apply bool_decide_eq_true in Hn. rewrite (Hnil Hn).
      rewrite <- (init_array [] d Hd). simpl.
      unfold null_fill at 3. reflexivity.
    - apply init_array. exact Hd. }
  rewrite Harr in H. clear Harr. bool_hyps.
  destruct ((1 <=? conf_warn_level c) && (conf_warn_level c <=? 100));
    [|discriminate]. simpl in H.
  destruct ((0 <=? conf_normal_level c) &&
            (conf_normal_level c <=? conf_warn_level c - 1));
    [|discriminate]. simpl in H.
  destruct ((0 <=? conf_tolerance c) && (conf_tolerance c <=? 600));
    [|discriminate]. simpl in H.
  injection H as <-. simpl. unfold live. simpl. repeat split; auto; lia.
Qed.

Lemma buffer_init_fresh_witness :
  exists s',
    buffer_init 16 true (mkConf 7 75 25 10) warned4 = Ret s' /\
    buffer s' = Some (replicate 8 None) /\ live s' = [] /\
    live warned4 = [Some "a"; Some "b"; Some "c"; Some "d"].
Proof.
  assert (sane 16 warned4) as Hs.
  { unfold sane. simpl. repeat split; (reflexivity || discriminate). }
  assert (uint (buflength (mkConf 7 75 25 10) + 1) <> current_capacity warned4)
    as Hne by discriminate.
  eexists. split; [vm_compute; reflexivity|].
  destruct (buffer_init_fresh 16 true (mkConf 7 75 25 10) warned4 _ Hs
              (or_intror Hne) eq_refl)
    as (_ & Hb & _ & _ & _ & _ & _ & _ & _ & _ & _ & _ & Hl).
  split; [exact Hb|]. split; [exact Hl|reflexivity].
Defined.

(** X14.  A [buffer_init] on a buffer that already has the capacity
    asked for allocates and frees nothing: its outcome does not depend
    on the maximum capacity or on whether an allocation would succeed,
    and when it returns the array still holds every pointer it held,
    [start] and [end_] are kept, while indices, count, level and flags
    are reset.  The messages that were waiting are no longer in the
    queue. *)
Theorem buffer_init_same_capacity hi hi' a a' c s b :
  buffer s = Some b ->
  uint (buflength c + 1) = current_capacity s ->
  buffer_init hi a c s = buffer_init hi' a' c s /\
  forall s',
    buffer_init hi a c s = Ret s' ->
    buffer s' = Some b /\ current_capacity s' = current_capacity s /\
    start s' = start s /\ end_ s' = end_ s /\
    i s' = 0 /\ j s' = 0 /\ message_count s' = 0 /\ state s' = NORMAL /\
    buff s' = mkBuff false false false false /\
    live s' = [].
Proof.
  intros Hb Hd. unfold buffer_init, getDefine_Int.
  rewrite Hd, Z.eqb_refl, Hb. simpl.
  split; [reflexivity|]. intros s'.
  destruct ((1 <=? conf_warn_level c) && (conf_warn_level c <=? 100));
    [|discriminate]. simpl.
  destruct ((0 <=? conf_normal_level c) &&
            (conf_normal_level c <=? conf_warn_level c - 1));
    [|discriminate]. simpl.
  destruct ((0 <=? conf_tolerance c) && (conf_tolerance c <=? 600));
    [|discriminate]. simpl.
  intros [= <-]. unfold live. simpl. rewrite Hb. repeat split.
Qed.

Lemma buffer_init_same_capacity_witness :
  exists s',
    buffer_init 5 false conf4 warned4 = Ret s' /\
    buffer s' = Some [Some "a"; Some "b"; Some "c"; Some "d"; None] /\
    message_count s' = 0 /\ live s' = [].
Proof.
  eexists. split; [vm_compute; reflexivity|].
  destruct (buffer_init_same_capacity 5 5 false false conf4 warned4
              [Some "a"; Some "b"; Some "c"; Some "d"; None] eq_refl eq_refl)
    as (_ & H).
  destruct (H _ eq_refl) as (Hb & _ & _ & _ & _ & _ & Hc & _ & _ & Hl).
  split; [exact Hb|]. split; [exact Hc | exact Hl].
Defined.

(** X15.  [buffer_init] either returns or exits, and it returns exactly
    when the storage is available (the buffer already has the capacity
    asked for, or that capacity is not 0, is within the maximum and the
    allocation succeeds) and the three configured values are within
    their bounds: warn level in 1..100, normal level in 0..warn level - 1,
    tolerance in 0..600. *)
Theorem buffer_init_returns_iff hi a c s :
  ((exists s', buffer_init hi a c s = Ret s') <->
   ((buffer s <> None /\ uint (buflength c + 1) = current_capacity s) \/
    (uint (buflength c + 1) <> 0 /\ uint (buflength c + 1) <= hi /\ a = true)) /\
   1 <= conf_warn_level c <= 100 /\
   0 <= conf_normal_level c <= conf_warn_level c - 1 /\
   0 <= conf_tolerance c <= 600) /\
  (buffer_init hi a c s = Exits \/ exists s', buffer_init hi a c s = Ret s').
Proof.
  unfold buffer_init, getDefine_Int, resize_internal_buffer.
  set (d := uint (buflength c + 1)).
  destruct ((1 <=? conf_warn_level c) && (conf_warn_level c <=? 100)) eqn:Ew;
    destruct ((0 <=? conf_normal_level c) &&
              (conf_normal_level c <=? conf_warn_level c - 1)) eqn:En;
    destruct ((0 <=? conf_tolerance c) && (conf_tolerance c <=? 600)) eqn:Et;
    destruct (bool_decide (buffer s = None)) eqn:Hnone;
    destruct (Z.eqb_spec d (current_capacity s));
    destruct (Z.eqb_spec d 0); destruct (Z.ltb_spec hi d); destruct a;
    simpl; rewrite ?Ew; simpl; rewrite ?En; simpl; rewrite ?Et; simpl;
    repeat match goal with
           | H : bool_decide _ = true |- _ => apply bool_decide_eq_true in H
           | H : bool_decide _ = false |- _ => apply bool_decide_eq_false in H
           | H : _ && _ = true |- _ => apply andb_prop in H as [? ?]
           | H : _ && _ = false |- _ => apply andb_false_iff in H as [H|H]
           | H : (_ <=? _) = true |- _ => apply Z.leb_le in H
           | H : (_ <=? _) = false |- _ => apply Z.leb_gt in H
           end;
    lazymatch goal with
    | |- ((exists s', Exits = Ret s') <-> _) /\ _ =>
        split;
        [split;
         [intros [? ?]; discriminate
         |intros (Hst & Hw' & Hn' & Ht'); exfalso; try lia;
          destruct Hst as [[? ?]|(? & ? & ?)]; congruence || lia]
        |left; reflexivity]
    | |- ((exists s', Ret _ = Ret s') <-> _) /\ _ =>
        split;
        [split;
         [intros _; split;
          [first [left; split; [assumption|first [assumption|lia]]
                 |right; repeat split; first [assumption|lia|reflexivity]]
          |lia]
         |eauto]
        |right; eauto]
    end.
Qed.

(** X16.  [buffer_destroy] followed by [buffer_init] forgets the past:
    the outcome depends on the configuration, the allocator and the
    message counter of the agent state module, and on nothing else the
    buffer held or was before. *)
Theorem init_after_destroy_forgets_history hi a c s1 s2 :
  agent_msg_count s1 = agent_msg_count s2 ->
  buffer_init hi a c (buffer_destroy s1) = buffer_init hi a c (buffer_destroy s2).
Proof.
  intros H. destruct s1, s2. simpl in H. subst.
  cbv beta iota zeta delta [buffer_init buffer_destroy getDefine_Int resize_internal_buffer
    set_tolerance set_normal_level set_warn_level set_normal set_flood
    set_warn set_full set_buff set_state set_message_count set_j set_i
    set_current_capacity set_buffer set_end set_start
    i j message_count state warn_level normal_level tolerance buff buffer
    current_capacity start end_ agent_msg_count
    buff_full buff_warn buff_flood buff_normal mbind outcome_bind fst snd].
  destruct ((uint (buflength c + 1) =? 0) || (hi <? uint (buflength c + 1)));
    [reflexivity|].
  destruct a; [|reflexivity].
  cbv beta iota delta [negb Z.eqb].
  destruct ((1 <=? conf_warn_level c) && (conf_warn_level c <=? 100));
    [|destruct (_ || _); reflexivity].
  destruct ((0 <=? conf_normal_level c) &&
            (conf_normal_level c <=? conf_warn_level c - 1));
    [|destruct (_ || _); reflexivity].
  destruct ((0 <=? conf_tolerance c) && (conf_tolerance c <=? 600));
    destruct (_ || _); reflexivity.
Qed.

Lemma init_after_destroy_forgets_history_witness :
  buffer_init 16 true conf4 (buffer_destroy (set_agent_msg_count 0 wrapped3))
    = buffer_init 16 true conf4 (buffer_destroy boot).
Proof.
  exact (init_after_destroy_forgets_history 16 true conf4
           (set_agent_msg_count 0 wrapped3) boot eq_refl).
Defined.

(** ** The index step, the level tests, the counter and the notifications *)

Lemma forward_in_range idx cap :
  0 < cap < 2147483648 -> 0 <= idx < cap ->
  forward idx cap = Some ((idx + 1) mod cap).
Proof.
  intros Hc Hi. unfold forward.
  destruct (Z.eqb_spec cap 0); [lia|].
  rewrite uint_small by lia.
  pose proof (Z.mod_pos_bound (idx + 1) cap ltac:(lia)).
  rewrite sint_small by lia. reflexivity.
Qed.

Lemma forward_n_in_range cap :
  0 < cap < 2147483648 ->
  forall n idx, 0 <= idx < cap ->
  forward_n n idx cap = Some ((idx + Z.of_nat n) mod cap).
Proof.
  intros Hc. induction n as [|n IH]; intros idx Hi.
  - simpl. rewrite Z.add_0_r, Z.mod_small by lia. reflexivity.
  - cbn [forward_n]. rewrite forward_in_range by assumption. simpl.
    rewrite IH by (apply Z.mod_pos_bound; lia).
    f_equal. rewrite Zplus_mod_idemp_l. f_equal. lia.
Qed.

(** X17.  [forward] walks the array as a cycle.  For a capacity that fits
    the signed index type and an index inside the array, [n] steps lead
    to the index [n] places further modulo the capacity: a step never
    leaves the array, as many steps as there are cells lead back to the
    start, and fewer steps never do. *)
Theorem forward_cycles idx cap :
  0 < cap < 2147483648 -> 0 <= idx < cap ->
  (forall n, forward_n n idx cap = Some ((idx + Z.of_nat n) mod cap)) /\
  (forall n idx', forward_n n idx cap = Some idx' -> 0 <= idx' < cap) /\
  forward_n (Z.to_nat cap) idx cap = Some idx /\
  (forall n, (0 < n)%nat -> Z.of_nat n < cap -> forward_n n idx cap <> Some idx).
Proof.
  intros Hc Hi.
  pose proof (forward_n_in_range cap Hc) as F.
  split; [intros n; apply F; exact Hi|].
  split.
  { intros n idx'. rewrite F by exact Hi. intros [= <-]. apply Z.mod_pos_bound. lia. }
  split.
  { rewrite F by exact Hi. rewrite Z2Nat.id by lia.
    rewrite <- (Z.mul_1_l cap) at 1. rewrite Z.mod_add by lia.
    rewrite Z.mod_small by lia. reflexivity. }
  intros n Hn Hlt. rewrite F by exact Hi. intros [= H].
  apply (mod_add_distinct cap idx 0 (Z.of_nat n)); [lia|lia|].
  rewrite Z.add_0_r, Z.mod_small by lia. lia.
Qed.

Lemma forward_cycles_witness :
  (forall n, forward_n n 3 5 = Some ((3 + Z.of_nat n) mod 5)) /\
  (forall n idx', forward_n n 3 5 = Some idx' -> 0 <= idx' < 5) /\
  forward_n (Z.to_nat 5) 3 5 = Some 3 /\
  (forall n, (0 < n)%nat -> Z.of_nat n < 5 -> forward_n n 3 5 <> Some 3).
Proof. apply (forward_cycles 3 5); lia. Defined.

(** X18.  The three level tests agree with each other.  [nowarn] is the
    negation of [warn] for every count and capacity, the overflowing
    ones included; with the normal level below the warn level, as
    [buffer_init] enforces, a fill that is [normal] is also [nowarn]; and
    for a capacity of at most 1 no division is made: the fill is then
    never [warn] and always [normal]. *)
Theorem level_tests_agree s count cap :
  normal_level s < warn_level s ->
  nowarn s count cap = negb (warn s count cap) /\
  (normal s count cap = true -> nowarn s count cap = true) /\
  (cap <= 1 -> warn s count cap = false /\ normal s count cap = true).
Proof.
  intros Hlv. unfold nowarn, warn, normal.
  destruct (Z.leb_spec cap 1) as [Hcap|Hcap].
  - repeat split; reflexivity.
  - split; [|split].
    + destruct (Z.ltb_spec (fill count cap) (warn_level s)),
               (Z.leb_spec (warn_level s) (fill count cap)); reflexivity || lia.
    + intros Hn. apply Z.leb_le in Hn. apply Z.ltb_lt. lia.
    + lia.
Qed.

Lemma level_tests_agree_witness :
  nowarn warned4 3 5 = negb (warn warned4 3 5) /\
  (normal warned4 3 5 = true -> nowarn warned4 3 5 = true) /\
  (5 <= 1 -> warn warned4 3 5 = false /\ normal warned4 3 5 = true).
Proof. apply (level_tests_agree warned4 3 5). vm_compute. reflexivity. Defined.

Lemma buffer_init_counter hi a c s s' :
  buffer_init hi a c s = Ret s' -> agent_msg_count s' = agent_msg_count s.
Proof.
  unfold buffer_init, getDefine_Int, resize_internal_buffer. intros H.
  repeat (case_match; simpl in *; try discriminate); simplify_eq; reflexivity.
Qed.

Lemma buffer_append_counter lo hi e msg s r s' cs :
  buffer_append lo hi e msg s = Ret (r, s', cs) ->
  agent_msg_count s' = agent_msg_count s + 1.
Proof.
  intros H. apply buffer_append_inv in H as (cs' & H & _).
  apply append_store_frame in H.
  destruct H as (_ & _ & _ & _ & _ & _ & Ha & _). rewrite Ha. simpl.
  destruct (append_level_frame e (fst (append_resize lo hi e s)))
    as (_ & _ & _ & _ & _ & Hl & _).
  destruct (append_resize_frame lo hi e s) as (_ & _ & _ & _ & _ & _ & _ & Hr & _).
  simpl in *. lia.
Qed.

Lemma step_counter lo hi o s s' :
  step lo hi o s = Ret s' ->
  agent_msg_count s' = agent_msg_count s + appends_in [o].
Proof.
  destruct o as [a c|e msg| | |]; simpl; intros H.
  - apply buffer_init_counter in H. lia.
  - destruct (buffer_append lo hi e msg s) as [[[r s1] cs]| | |] eqn:E;
      simpl in H; simplify_eq.
    apply buffer_append_counter in E. simpl. lia.
  - destruct (dispatch_pop s) as [[m s1]| | |] eqn:E; simpl in H; simplify_eq.
    apply dispatch_pop_level in E. simpl. lia.
  - simplify_eq. destruct (dispatch_notify_frame s) as (_ & _ & _ & _ & _ & _ & _ & Ha).
    simpl in *. lia.
  - simplify_eq. simpl. lia.
Qed.

(** X19.  The message counter of the agent state module counts the
    appends and nothing else.  Along every run that returns, it grows by
    exactly the number of [buffer_append] calls made, accepted or
    dropped; [buffer_init], [buffer_destroy], the pop step and the
    notification step leave it alone. *)
Theorem run_counts_appends lo hi ops s s' :
  run lo hi ops s = Ret s' ->
  agent_msg_count s' = agent_msg_count s + appends_in ops.
Proof.
  revert s. induction ops as [|o ops IH]; intros s; simpl.
  - intros [= <-]. lia.
  - destruct (step lo hi o s) as [s1| | |] eqn:E; simpl; try discriminate.
    intros H. apply IH in H. apply step_counter in E.
    rewrite H, E. simpl. destruct o; lia.
Qed.

Lemma run_counts_appends_witness :
  agent_msg_count wrapped3 = agent_msg_count boot + 6.
Proof.
  refine (run_counts_appends 2 16 wrap3 boot wrapped3 _).
  vm_compute. reflexivity.
Defined.

(** X20.  The notification step reports each pending flag once.  It
    sends the notifications of exactly the flags that are set, in the
    order warn, full, flood, normal, clears all four, and changes nothing
    else; run again at once it sends nothing. *)
Theorem notify_reports_each_flag_once s :
  fst (dispatch_notify s)
    = (if buff_warn (buff s) then [Notify_warn] else [])
      ++ (if buff_full (buff s) then [Notify_full] else [])
      ++ (if buff_flood (buff s) then [Notify_flood] else [])
      ++ (if buff_normal (buff s) then [Notify_normal] else []) /\
  snd (dispatch_notify s) = set_buff (mkBuff false false false false) s /\
  dispatch_notify (snd (dispatch_notify s)) = ([], snd (dispatch_notify s)).
Proof.
  destruct s as [i0 j0 c0 st wl nl tol [f w fl n] b cap st0 e0 a0].
  destruct f, w, fl, n; repeat split; reflexivity.
Qed.

(** X21.  [buffer_destroy] from any state leaves a buffer without
    storage: the length query answers -1, the buffer counts as empty and
    as not full, the pop step waits, and [buffer_append] is undefined
    until [buffer_init] is called again.  The configured levels and the
    message counter are kept, and a second [buffer_destroy] changes
    nothing. *)
Theorem destroy_leaves_no_storage lo hi e msg s :
  let d := buffer_destroy s in
  w_agentd_get_buffer_lenght d = -1 /\
  buffer_is_empty d = 1 /\
  buffer_is_full d = 0 /\
  dispatch_pop d = Waits /\
  buffer_append lo hi e msg d = Undefined /\
  buffer_destroy d = d /\
  warn_level d = warn_level s /\ normal_level d = normal_level s /\
  tolerance d = tolerance s /\ agent_msg_count d = agent_msg_count s.
Proof.
  destruct s as [i0 j0 c0 st wl nl tol fl b cap st0 e0 a0].
  repeat apply conj; vm_compute; reflexivity.
Qed.

(** X22.  At the maximum capacity [buffer_is_full] predicts the next
    append.  When the ring cannot grow any more and the copy of the
    message can be allocated, a returning [buffer_append] drops the
    message exactly when [buffer_is_full] answered 1 just before, and it
    then leaves the count and the indices as they were. *)
Theorem full_query_predicts_drop lo hi e msg s r s' cs :
  hi <= current_capacity s ->
  strdup_ok e = true ->
  buffer_append lo hi e msg s = Ret (r, s', cs) ->
  (r = -1 <-> buffer_is_full s = 1) /\
  (r = -1 -> message_count s' = message_count s /\ i s' = i s /\ j s' = j s).
Proof.
  intros Hmax Hok H. rewrite (buffer_append_at_max lo hi e msg s Hmax) in H.
  destruct (append_level_frame e s) as (Hi & Hj & Hc & Hb & Hcap & _).
  unfold buffer_is_full.
  unfold append_store in H. simpl in H. simpl in Hi, Hj, Hc, Hb, Hcap.
  rewrite Hc, Hcap, Hok in H.
  destruct (full (message_count s) (current_capacity s)) eqn:Ef; simpl in H.
  - simplify_eq. simpl. repeat split; auto.
  - repeat (case_match; simpl in H; try discriminate); simplify_eq.
    simpl. split; [split; intros; lia|intros; lia].
Qed.

Lemma full_query_predicts_drop_witness :
  exists s' cs,
    buffer_append 2 5 (ok_at 0) "e" warned4 = Ret (-1, s', cs) /\
    ((-1 = -1 <-> buffer_is_full warned4 = 1) /\
     (-1 = -1 -> message_count s' = message_count warned4 /\
                 i s' = i warned4 /\ j s' = j warned4)).
Proof.
  eexists _, _. split; [vm_compute; reflexivity|].
  refine (full_query_predicts_drop 2 5 (ok_at 0) "e" warned4 (-1) _ _ _ _ _);
    vm_compute; reflexivity || (intros; discriminate).
Defined.

(** * Properties of the users provider *)

Lemma get_Some_lt text : forall k c, String.get k text = Some c -> (k < String.length text)%nat.
Proof.
  induction text as [|a text IH]; intros k c; simpl; [discriminate|].
  destruct k; [lia|]. intros H. apply IH in H. lia.
Qed.

Lemma get_None_ge text : forall k, String.get k text = None -> (String.length text <= k)%nat.
Proof.
  induction text as [|a text IH]; intros k; simpl; [lia|].
  destruct k; [discriminate|]. intros H. apply IH in H. lia.
Qed.

Lemma get_lt_Some text : forall k, (k < String.length text)%nat -> exists c, String.get k text = Some c.
Proof.
  intros k Hk. destruct (String.get k text) eqn:E; [eauto|].
  apply get_None_ge in E. lia.
Qed.

Lemma char_at_in_bounds text k :
  (k <= String.length text)%nat -> exists c, char_at text k = Ret c.
Proof.
  intros Hk. unfold char_at. destruct (String.get k text) eqn:E; [eauto|].
  apply get_None_ge in E. replace (k =? String.length text)%nat with true; [eauto|].
  symmetry. apply Nat.eqb_eq. lia.
Qed.

Lemma char_at_not_nul text k c :
  char_at text k = Ret c -> c <> NUL -> (k < String.length text)%nat.
Proof.
  unfold char_at. destruct (String.get k text) eqn:E.
  - intros _ _. eapply get_Some_lt; eauto.
  - destruct (k =? String.length text)%nat; [|discriminate]. intros [= <-]. congruence.
Qed.

Lemma substring_full text : forall m n r,
  String.substring m n text = r -> String.length r = n -> (0 < n)%nat ->
  (m + n <= String.length text)%nat.
Proof.
  induction text as [|a text IH]; intros m n r.
  - destruct m, n; simpl; intros <-; simpl; intros; lia.
  - destruct m; simpl.
    + destruct n; [intros; lia|]. intros <-. simpl. intros [=H] _.
      destruct n.
      * lia.
      * specialize (IH 0%nat (S n) _ eq_refl H). lia.
    + intros H1 H2 H3. specialize (IH m n r H1 H2 H3). lia.
Qed.

Lemma strstr_in_bounds text m :
  strstr text locked_str = Some m -> (m + 8 <= String.length text)%nat.
Proof.
  unfold strstr. intros H. apply String.index_correct1 in H.
  apply (substring_full _ _ _ _ H); [reflexivity|simpl; lia].
Qed.

Lemma c_str_no_nul mem : forall k c, String.get k (c_str mem) = Some c -> c <> NUL.
Proof.
  induction mem as [|a mem IH]; intros k c; simpl; [discriminate|].
  destruct (Ascii.eqb_spec a NUL) as [->|Ha]; simpl; [discriminate|].
  destruct k; [congruence|]. apply IH.
Qed.


Ltac in_names := unfold hash_names; apply list_elem_of_In; simpl; tauto.

Lemma hash_algorithm_at_returns text off :
  (off <= String.length text)%nat ->
  exists r, hash_algorithm_at text off = Ret r /\
            forall a, r = Some a -> a ∈ hash_names.
Proof.
  intros Hoff. unfold hash_algorithm_at.
  destruct (char_at_in_bounds text off Hoff) as [c0 E0]. rewrite E0. simpl.
  assert (Hnext : c0 <> NUL -> exists c1, char_at text (off + 1) = Ret c1 /\
            (c1 <> NUL -> exists c2, char_at text (off + 2) = Ret c2)).
  { intros Hc0. pose proof (char_at_not_nul _ _ _ E0 Hc0) as Hlt.
    destruct (char_at_in_bounds text (off + 1) ltac:(lia)) as [c1 E1].
    exists c1. split; [exact E1|]. intros Hc1.
    pose proof (char_at_not_nul _ _ _ E1 Hc1).
    apply char_at_in_bounds. lia. }
  destruct (Ascii.eqb_spec c0 NUL) as [->|Hc0].
  { simpl. eexists. split; [reflexivity|]. discriminate. }
  destruct (Hnext Hc0) as (c1 & E1 & Hnext2). rewrite E1. clear Hnext.
  destruct (Ascii.eqb_spec c0 "*"%char) as [->|Hstar]; simpl.
  { destruct (Ascii.eqb c1 NUL); eexists; (split; [reflexivity|]).
    - discriminate.
    - intros a [= <-]. in_names. }
  destruct (Ascii.eqb_spec c0 "_"%char) as [->|Hund].
  { eexists; (split; [reflexivity|]). intros a [= <-]. in_names. }
  destruct (Ascii.eqb_spec c0 "$"%char) as [->|Hdol].
  2:{ eexists; (split; [reflexivity|]). intros a [= <-]. in_names. }
  destruct (Ascii.eqb_spec c1 NUL) as [->|Hc1].
  { eexists. split; [reflexivity|]. discriminate. }
  destruct (Hnext2 Hc1) as (c2 & E2). rewrite E2. simpl.
  destruct (Ascii.eqb c2 "$"%char); simpl.
  2:{ eexists. split; [reflexivity|]. discriminate. }
  eexists. split; [reflexivity|]. intros a.
  repeat destruct (Ascii.eqb c1 _); intros [= <-]; in_names.
Qed.

Lemma get_password_hash_algorithm_ret getuid strdup_ok pw :
  getuid <> 0 \/ pw <> None ->
  exists r, get_password_hash_algorithm getuid strdup_ok pw = Ret r /\
            forall a, r = Some a ->
              getuid = 0 /\ strdup_ok = true /\ a ∈ hash_names.
Proof.
  intros H. unfold get_password_hash_algorithm.
  destruct (Z.eqb_spec getuid 0) as [->|Hu]; simpl.
  2:{ eexists. split; [reflexivity|]. discriminate. }
  destruct pw as [mem|]; [|destruct H; congruence].
  destruct (char_at_in_bounds (c_str mem) 0 ltac:(lia)) as [c E]. rewrite E. simpl.
  destruct (Ascii.eqb c NUL).
  { eexists. split; [reflexivity|]. discriminate. }
  destruct strdup_ok; simpl.
  2:{ eexists. split; [reflexivity|]. discriminate. }
  destruct (hash_algorithm_at_returns (c_str mem)
              (match strstr (c_str mem) locked_str with
               | Some _ => String.length locked_str | None => 0%nat end))
    as (r & Er & Hr).
  { destruct (strstr (c_str mem) locked_str) eqn:Es; [|lia].
    apply strstr_in_bounds in Es. simpl. lia. }
  exists r. split; [exact Er|]. intros a Ha. auto.
Qed.


(** X23.  [get_password_hash_algorithm] always returns when it is given a
    pointer, and without a pointer as long as the process is not root:
    no read goes beyond the terminating NUL of the copy, wherever the
    lock marker stands.  The result is NULL or one of seven names; it is
    a name only for root, after a successful copy. *)
Theorem hash_algorithm_returns getuid strdup_ok pw :
  getuid <> 0 \/ pw <> None ->
  exists r, get_password_hash_algorithm getuid strdup_ok pw = Ret r /\
            forall a, r = Some a ->
              getuid = 0 /\ strdup_ok = true /\ a ∈ hash_names.
Proof. apply get_password_hash_algorithm_ret. Qed.

Lemma hash_algorithm_returns_witness :
  exists r, get_password_hash_algorithm 0 true (Some "ab*LOCKED*"%string) = Ret r /\
            forall a, r = Some a -> 0 = 0 /\ true = true /\ a ∈ hash_names.
Proof.
  apply (hash_algorithm_returns 0 true (Some "ab*LOCKED*"%string)).
  right. discriminate.
Defined.

Ltac char_cases c :=
  repeat match goal with
  | |- context [Ascii.eqb c ?d] =>
      destruct (Ascii.eqb_spec c d); [subst c; simpl in *|]
  end.

Ltac close_shape :=
  split;
  [ let Heq := fresh in
    intros Heq; try discriminate Heq;
    repeat eexists; try reflexivity; try assumption;
    try (let H := fresh in intros H; simplify_eq; congruence)
  | let Hex := fresh in
    intros Hex;
    repeat match goal with
           | H : ex _ |- _ => destruct H
           | H : _ /\ _ |- _ => destruct H
           end;
    try reflexivity;
    repeat match goal with H : _ = _ +:+ _ |- _ => cbv in H end;
    simplify_eq; congruence ].

Ltac close_shapes :=
  repeat match goal with |- _ /\ _ => split end; close_shape.

(** X24.  What root gets for a password text without the lock marker,
    once the copy has succeeded: each name is returned for exactly one
    shape of the text.  The five modular-crypt names need the digit
    between two dollar signs, [DES-Extended] the leading underscore, and
    [DES] is every non-empty text that starts with neither an underscore
    nor a dollar sign, except the lone asterisk. *)
Theorem hash_algorithm_by_prefix mem :
  strstr (c_str mem) locked_str = None ->
  let r := get_password_hash_algorithm 0 true (Some mem) in
  (r = Ret (Some "MD5"%string) <-> exists rest, c_str mem = "$1$" +:+ rest) /\
  (r = Ret (Some "Blowfish"%string) <-> exists rest, c_str mem = "$2$" +:+ rest) /\
  (r = Ret (Some "NT-Hash"%string) <-> exists rest, c_str mem = "$3$" +:+ rest) /\
  (r = Ret (Some "SHA-256"%string) <-> exists rest, c_str mem = "$5$" +:+ rest) /\
  (r = Ret (Some "SHA-512"%string) <-> exists rest, c_str mem = "$6$" +:+ rest) /\
  (r = Ret (Some "DES-Extended"%string) <-> exists rest, c_str mem = "_" +:+ rest) /\
  (r = Ret (Some "DES"%string) <->
     exists c rest, c_str mem = String c rest /\
       c <> "_"%char /\ c <> "$"%char /\ c_str mem <> "*"%string).
Proof.
  intros Hno r. subst r. unfold get_password_hash_algorithm. simpl (negb _).
  cbv iota. rewrite Hno.
  pose proof (c_str_no_nul mem) as Hnn.
  destruct (c_str mem) as [|c0 [|c1 [|c2 rest]]].
  - simpl. clear. close_shapes.
  - pose proof (Hnn 0%nat c0 eq_refl) as H0. clear Hnn Hno.
    unfold hash_algorithm_at, char_at. simpl.
    char_cases c0; try congruence; simpl; close_shapes.
  - pose proof (Hnn 0%nat c0 eq_refl) as H0.
    pose proof (Hnn 1%nat c1 eq_refl) as H1. clear Hnn Hno.
    unfold hash_algorithm_at, char_at. simpl.
    char_cases c0; try congruence; simpl;
      char_cases c1; try congruence; simpl; close_shapes.
  - pose proof (Hnn 0%nat c0 eq_refl) as H0.
    pose proof (Hnn 1%nat c1 eq_refl) as H1. clear Hnn Hno.
    unfold hash_algorithm_at, char_at. simpl.
    char_cases c0; try congruence; simpl;
      char_cases c1; try congruence; simpl;
      char_cases c2; simpl; close_shapes.
Qed.

Lemma hash_algorithm_by_prefix_witness :
  get_password_hash_algorithm 0 true (Some "$6$rounds"%string) = Ret (Some "SHA-512"%string).
Proof.
  destruct (hash_algorithm_by_prefix "$6$rounds" eq_refl) as (_ & _ & _ & _ & H & _).
  apply H. exists "rounds"%string. reflexivity.
Defined.

Lemma c_str_fixed text :
  (forall k c, String.get k text = Some c -> c <> NUL) -> c_str text = text.
Proof.
  induction text as [|a text IH]; intros H; simpl; [reflexivity|].
  destruct (Ascii.eqb_spec a NUL) as [->|Ha].
  - exfalso. exact (H 0%nat NUL eq_refl eq_refl).
  - f_equal. apply IH. intros k c Hk. exact (H (S k) c Hk).
Qed.

Lemma get_advance n : forall text k,
  (n <= String.length text)%nat ->
  String.get k (advance n text) = String.get (n + k) text.
Proof.
  induction n as [|n IH]; intros text k Hn; simpl; [reflexivity|].
  destruct text as [|a text]; simpl in *; [lia|].
  apply IH. lia.
Qed.

Lemma length_advance n : forall text,
  (n <= String.length text)%nat ->
  String.length (advance n text) = (String.length text - n)%nat.
Proof.
  induction n as [|n IH]; intros text Hn; simpl; [lia|].
  destruct text as [|a text]; simpl in *; [lia|].
  apply IH. lia.
Qed.

Lemma char_at_advance n text k :
  (n <= String.length text)%nat ->
  char_at (advance n text) k = char_at text (n + k).
Proof.
  intros Hn. unfold char_at. rewrite get_advance, length_advance by exact Hn.
  destruct (String.get (n + k) text); [reflexivity|].
  destruct (Nat.eqb_spec k (String.length text - n)), (Nat.eqb_spec (n + k) (String.length text));
    reflexivity || lia.
Qed.

Lemma hash_algorithm_at_advance n text :
  (n <= String.length text)%nat ->
  hash_algorithm_at (advance n text) 0 = hash_algorithm_at text n.
Proof.
  intros Hn. unfold hash_algorithm_at.
  rewrite !char_at_advance by exact Hn.
  rewrite Nat.add_0_r. reflexivity.
Qed.

Lemma hash_algorithm_at_end text off :
  char_at text off = Ret NUL -> hash_algorithm_at text off = Ret None.
Proof. intros H. unfold hash_algorithm_at. rewrite H. reflexivity. Qed.

(** X25.  The skip of the lock marker does not look where the marker
    stands.  Whenever the marker occurs somewhere in the password text,
    the first eight characters are passed over, whatever they are, and
    the answer is the one for the text from the ninth character on
    (taken as a password of its own, without a marker in it).  For a
    text that starts with the marker this is the password behind it. *)
Theorem lock_marker_skips_eight getuid strdup_ok mem m :
  strstr (c_str mem) locked_str = Some m ->
  strstr (advance 8 (c_str mem)) locked_str = None ->
  get_password_hash_algorithm getuid strdup_ok (Some mem)
  = get_password_hash_algorithm getuid strdup_ok (Some (advance 8 (c_str mem))).
Proof.
  intros Hm Hrest. unfold get_password_hash_algorithm.
  destruct (negb (getuid =? 0)); [reflexivity|].
  pose proof (strstr_in_bounds _ _ Hm) as Hlen.
  assert (H8 : (8 <= String.length (c_str mem))%nat) by lia.
  assert (Hfix : c_str (advance 8 (c_str mem)) = advance 8 (c_str mem)).
  { apply c_str_fixed. intros k c. rewrite get_advance by exact H8.
    apply c_str_no_nul. }
  rewrite Hfix, Hrest, Hm.
  destruct (get_lt_Some (c_str mem) 0%nat ltac:(lia)) as [c0 E0].
  pose proof (c_str_no_nul _ _ _ E0) as Hc0.
  change (String.length locked_str) with 8%nat.
  rewrite <- (hash_algorithm_at_advance 8 (c_str mem) H8).
  destruct (char_at_in_bounds (advance 8 (c_str mem)) 0 ltac:(lia)) as [c E].
  remember (advance 8 (c_str mem)) as rest eqn:Erest. clear Erest Hfix Hrest.
  rewrite E. unfold char_at at 1. rewrite E0.
  cbn [mbind outcome_bind].
  destruct (Ascii.eqb_spec c0 NUL); [congruence|].
  destruct (Ascii.eqb_spec c NUL) as [->|Hc].
  - destruct strdup_ok; cbn [negb]; [|reflexivity].
    apply hash_algorithm_at_end. exact E.
  - destruct strdup_ok; reflexivity.
Qed.

Lemma lock_marker_skips_eight_witness :
  get_password_hash_algorithm 0 true (Some "$6$ab*LOCKED*"%string)
  = get_password_hash_algorithm 0 true (Some (advance 8 (c_str "$6$ab*LOCKED*"))).
Proof.
  apply (lock_marker_skips_eight 0 true "$6$ab*LOCKED*"%string 5); reflexivity.
Defined.

Lemma genUserJson_fields getuid strdup_ok pwd include_remote h :
  get_password_hash_algorithm getuid strdup_ok (pw_passwd pwd) = Ret h ->
  exists r, genUserJson getuid strdup_ok pwd include_remote = Ret r /\
    r !! "uid"%string = Some (J_unsigned (pw_uid pwd)) /\
    r !! "uid_signed"%string = Some (J_integer (sint (pw_uid pwd))) /\
    r !! "username"%string = Some (J_string (name_of pwd)) /\
    r !! "hash_alg"%string = Some (J_string (default EmptyString h)) /\
    r !! "include_remote"%string = Some (J_integer (Z.b2z include_remote)).
Proof.
  intros H. unfold genUserJson. rewrite H. cbn [mbind outcome_bind].
  eexists. split; [reflexivity|].
  repeat split; reflexivity.
Qed.

Lemma genUserJson_reports getuid strdup_ok pwd :
  (getuid = 0 -> pw_passwd pwd <> None) ->
  exists r, genUserJson getuid strdup_ok pwd true = Ret r /\ reports r pwd.
Proof.
  intros Hpw.
  destruct (get_password_hash_algorithm_ret getuid strdup_ok (pw_passwd pwd))
    as (h & Eh & _).
  { destruct (Z.eq_dec getuid 0); [right; auto|left; auto]. }
  destruct (genUserJson_fields getuid strdup_ok pwd true h Eh)
    as (r & Er & Huid & _ & Hname & _ & Hrem).
  exists r. split; [exact Er|]. repeat split; assumption.
Qed.

Lemma collectUsers_loop_reports getuid strdup_ok usernames uids :
  forall answers k acc,
  Forall (entry_readable getuid usernames) (entries_read answers) ->
  exists res,
    collectUsers_loop getuid strdup_ok usernames uids k answers acc = Ret (acc ++ res) /\
    Forall2 reports res (List.filter (passes usernames uids) (entries_read answers)).
Proof.
  induction answers as [|[ret pwd_results] answers IH]; intros k acc Hall; simpl.
  { exists []. rewrite app_nil_r. split; [reflexivity|constructor]. }
  destruct (Z.eqb_spec ret 0) as [->|Hret]; simpl.
  2:{ exists []. rewrite app_nil_r. split; [reflexivity|].
      destruct pwd_results; constructor. }
  destruct pwd_results as [pwd|].
  2:{ exists []. rewrite app_nil_r. split; [reflexivity|constructor]. }
  simpl in Hall. apply Forall_cons in Hall as [[Hname Hpw] Hall].
  simpl. unfold passes at 1.
  destruct (decide (usernames = ∅)) as [Hus|Hus].
  - rewrite (bool_decide_eq_false_2 (usernames <> ∅)) by (intros H; exact (H Hus)).
    rewrite (bool_decide_eq_true_2 _ Hus).
    cbn [mbind outcome_bind orb andb].
    destruct (decide (uids = ∅)) as [Hids|Hids].
    + rewrite (bool_decide_eq_false_2 (uids <> ∅)) by (intros H; exact (H Hids)).
      rewrite (bool_decide_eq_true_2 _ Hids). cbn [orb andb].
      destruct (genUserJson_reports getuid (strdup_ok k) pwd Hpw) as (r & Er & Hr).
      rewrite Er. cbn [mbind outcome_bind].
      destruct (IH (S k) (acc ++ [r]) Hall) as (res & Eres & Hres).
      exists (r :: res). rewrite Eres, <- app_assoc. split; [reflexivity|].
      constructor; assumption.
    + rewrite (bool_decide_eq_true_2 (uids <> ∅)) by exact Hids.
      rewrite (bool_decide_eq_false_2 _ Hids). cbn [orb andb].
      destruct (decide (pw_uid pwd ∈ uids)) as [Hin|Hin].
      * rewrite (bool_decide_eq_false_2 (pw_uid pwd ∉ uids)) by (intros H; exact (H Hin)).
        rewrite (bool_decide_eq_true_2 _ Hin).
        destruct (genUserJson_reports getuid (strdup_ok k) pwd Hpw) as (r & Er & Hr).
        rewrite Er. cbn [mbind outcome_bind].
        destruct (IH (S k) (acc ++ [r]) Hall) as (res & Eres & Hres).
        exists (r :: res). rewrite Eres, <- app_assoc. split; [reflexivity|].
        constructor; assumption.
      * rewrite (bool_decide_eq_true_2 (pw_uid pwd ∉ uids)) by exact Hin.
        rewrite (bool_decide_eq_false_2 _ Hin).
        apply IH. exact Hall.
  - rewrite (bool_decide_eq_true_2 (usernames <> ∅)) by exact Hus.
    rewrite (bool_decide_eq_false_2 _ Hus).
    specialize (Hname Hus).
    unfold name_of. destruct (pw_name pwd) as [mem|] eqn:En; [|congruence].
    cbn [mbind outcome_bind orb andb].
    destruct (decide (c_str mem ∈ usernames)) as [Hn|Hn].
    2:{ rewrite (bool_decide_eq_true_2 (c_str mem ∉ usernames)) by exact Hn.
        rewrite (bool_decide_eq_false_2 _ Hn). cbn [andb].
        apply IH. exact Hall. }
    rewrite (bool_decide_eq_false_2 (c_str mem ∉ usernames)) by (intros H; exact (H Hn)).
    rewrite (bool_decide_eq_true_2 _ Hn). cbn [andb].
    destruct (decide (uids = ∅)) as [Hids|Hids].
    + rewrite (bool_decide_eq_false_2 (uids <> ∅)) by (intros H; exact (H Hids)).
      rewrite (bool_decide_eq_true_2 _ Hids). cbn [orb andb].
      destruct (genUserJson_reports getuid (strdup_ok k) pwd Hpw) as (r & Er & Hr).
      rewrite Er. cbn [mbind outcome_bind].
      destruct (IH (S k) (acc ++ [r]) Hall) as (res & Eres & Hres).
      exists (r :: res). rewrite Eres, <- app_assoc. split; [reflexivity|].
      constructor; assumption.
    + rewrite (bool_decide_eq_true_2 (uids <> ∅)) by exact Hids.
      rewrite (bool_decide_eq_false_2 _ Hids). cbn [orb andb].
      destruct (decide (pw_uid pwd ∈ uids)) as [Hin|Hin].
      * rewrite (bool_decide_eq_false_2 (pw_uid pwd ∉ uids)) by (intros H; exact (H Hin)).
        rewrite (bool_decide_eq_true_2 _ Hin).
        destruct (genUserJson_reports getuid (strdup_ok k) pwd Hpw) as (r & Er & Hr).
        rewrite Er. cbn [mbind outcome_bind].
        destruct (IH (S k) (acc ++ [r]) Hall) as (res & Eres & Hres).
        exists (r :: res). rewrite Eres, <- app_assoc. split; [reflexivity|].
        constructor; assumption.
      * rewrite (bool_decide_eq_true_2 (pw_uid pwd ∉ uids)) by exact Hin.
        rewrite (bool_decide_eq_false_2 _ Hin).
        apply IH. exact Hall.
Qed.

(** X26.  [collectUsers] reports the entries that pass the filters, in
    database order, and nothing else.  The walk reads the answers of
    [getpwent_r] up to the first call that fails or yields no entry;
    as long as those entries can be read it returns, with one object for
    each entry that is in every non-empty filter.  The two filters are
    combined by conjunction, and every object has [include_remote] 1. *)
Theorem collectUsers_reports_filtered getuid strdup_ok answers usernames uids :
  Forall (entry_readable getuid usernames) (entries_read answers) ->
  exists results,
    collectUsers getuid strdup_ok answers usernames uids = Ret results /\
    Forall2 reports results (List.filter (passes usernames uids) (entries_read answers)).
Proof.
  intros Hall. unfold collectUsers.
  destruct (collectUsers_loop_reports getuid strdup_ok usernames uids answers 0 [] Hall)
    as (res & Eres & Hres).
  exists res. split; assumption.
Qed.

(** X27.  [collect] ignores its argument.  Whether it is called with
    [include_remote] true or false, it reports every entry read from the
    database, unfiltered and in order, and each object has
    [include_remote] 1.  A process that is not root never needs the
    password field of an entry. *)
Theorem collect_reports_every_entry getuid strdup_ok answers include_remote :
  (getuid = 0 -> Forall (fun pwd => pw_passwd pwd <> None) (entries_read answers)) ->
  exists results,
    collect getuid strdup_ok answers include_remote = Ret results /\
    Forall2 reports results (entries_read answers).
Proof.
  intros Hpw. unfold collect, collectWithConstraints, collectUsers.
  destruct (collectUsers_loop_reports getuid strdup_ok ∅ ∅ answers 0 []) as (res & Eres & Hres).
  { apply Forall_forall. intros pwd Hin. split; [congruence|].
    intros Hu. specialize (Hpw Hu). rewrite Forall_forall in Hpw. auto. }
  exists res. split; [exact Eres|].
  assert (Hall : forall l, List.filter (passes ∅ ∅) l = l).
  { induction l as [|pwd l IH]; [reflexivity|]. simpl. rewrite IH. reflexivity. }
  rewrite Hall in Hres. exact Hres.
Qed.

Lemma collectUsers_reports_filtered_witness :
  exists results,
    collectUsers 0 (fun _ => true) sample_answers {["alice"; "nobody"]} {[1001; 1002]}
      = Ret results /\
    Forall2 reports results [alice].
Proof.
  assert (H : Forall (entry_readable 0 {["alice"; "nobody"]}) (entries_read sample_answers)).
  { simpl. repeat constructor; discriminate. }
  exact (collectUsers_reports_filtered 0 (fun _ => true) sample_answers
           {["alice"; "nobody"]} {[1001; 1002]} H).
Defined.

Lemma collect_reports_every_entry_witness :
  exists results,
    collect 0 (fun _ => true) sample_answers false = Ret results /\
    Forall2 reports results [alice; bob; nobody].
Proof.
  assert (H : 0 = 0 -> Forall (fun pwd => pw_passwd pwd <> None) (entries_read sample_answers)).
  { intros _. simpl. repeat constructor; discriminate. }
  exact (collect_reports_every_entry 0 (fun _ => true) sample_answers false H).
Defined.

(** X28.  The object [genUserJson] builds.  It is built for every entry
    when the process is not root, and for root when the entry has a
    password field.  [hash_alg] is always a string: empty or one of the
    seven names, and empty whenever the process is not root or the copy
    of the password fails.  [uid_signed] is the 32-bit two's complement
    reading of [uid]: congruent to it modulo 2^32, and equal to it
    exactly below 2^31.  A null name is reported as the empty string. *)
Theorem genUserJson_object getuid strdup_ok pwd include_remote :
  (getuid = 0 -> pw_passwd pwd <> None) ->
  0 <= pw_uid pwd < 4294967296 ->
  exists r h u,
    genUserJson getuid strdup_ok pwd include_remote = Ret r /\
    r !! "hash_alg"%string = Some (J_string h) /\
    (h = EmptyString \/ h ∈ hash_names) /\
    (getuid <> 0 \/ strdup_ok = false -> h = EmptyString) /\
    r !! "uid"%string = Some (J_unsigned (pw_uid pwd)) /\
    r !! "uid_signed"%string = Some (J_integer u) /\
    -2147483648 <= u < 2147483648 /\
    u mod 4294967296 = pw_uid pwd /\
    (u = pw_uid pwd <-> pw_uid pwd < 2147483648) /\
    r !! "username"%string = Some (J_string (name_of pwd)) /\
    (pw_name pwd = None -> name_of pwd = EmptyString) /\
    r !! "include_remote"%string = Some (J_integer (if include_remote then 1 else 0)).
Proof.
  intros Hpw Huid.
  destruct (get_password_hash_algorithm_ret getuid strdup_ok (pw_passwd pwd))
    as (h & Eh & Hh).
  { destruct (Z.eq_dec getuid 0); [right; auto|left; auto]. }
  destruct (genUserJson_fields getuid strdup_ok pwd include_remote h Eh)
    as (r & Er & Hu & Hus & Hname & Hhash & Hrem).
  exists r, (default EmptyString h), (sint (pw_uid pwd)).
  split; [exact Er|]. split; [exact Hhash|].
  split. { destruct h as [a|]; [right; apply (Hh a eq_refl)|left; reflexivity]. }
  split. { destruct h as [a|]; [|reflexivity]. destruct (Hh a eq_refl) as (Hroot & Hok & _).
           intros [Hn|Hn]; [congruence|]. rewrite Hok in Hn. discriminate. }
  split; [exact Hu|]. split; [exact Hus|].
  assert (Hs : sint (pw_uid pwd) = if pw_uid pwd <? 2147483648 then pw_uid pwd
                                   else pw_uid pwd - 4294967296).
  { unfold sint. destruct (Z.ltb_spec (pw_uid pwd) 2147483648).
    - rewrite Z.mod_small by lia. lia.
    - replace (pw_uid pwd + 2147483648) with (pw_uid pwd - 2147483648 + 1 * 4294967296) by lia.
      rewrite Z.mod_add by lia. rewrite Z.mod_small by lia. lia. }
  rewrite Hs.
  split. { destruct (Z.ltb_spec (pw_uid pwd) 2147483648); lia. }
  split. { destruct (Z.ltb_spec (pw_uid pwd) 2147483648).
           - apply Z.mod_small. lia.
           - replace (pw_uid pwd - 4294967296) with (pw_uid pwd + (-1) * 4294967296) by lia.
             rewrite Z.mod_add by lia. apply Z.mod_small. lia. }
  split. { destruct (Z.ltb_spec (pw_uid pwd) 2147483648); lia. }
  split; [exact Hname|].
  split. { intros Hn. unfold name_of. rewrite Hn. reflexivity. }
  destruct include_remote; exact Hrem.
Qed.

Lemma genUserJson_object_witness :
  exists r h u,
    genUserJson 0 true (mkPasswd None (Some "_J9..salt") 4294967295 0 0 None None None) false
      = Ret r /\
    r !! "hash_alg"%string = Some (J_string h) /\
    (h = EmptyString \/ h ∈ hash_names) /\
    (0 <> 0 \/ true = false -> h = EmptyString) /\
    r !! "uid"%string = Some (J_unsigned 4294967295) /\
    r !! "uid_signed"%string = Some (J_integer u) /\
    -2147483648 <= u < 2147483648 /\
    u mod 4294967296 = 4294967295 /\
    (u = 4294967295 <-> 4294967295 < 2147483648) /\
    r !! "username"%string = Some (J_string EmptyString) /\
    (@None string = None -> EmptyString = EmptyString) /\
    r !! "include_remote"%string = Some (J_integer 0).
Proof.
  apply (genUserJson_object 0 true
           (mkPasswd None (Some "_J9..salt") 4294967295 0 0 None None None) false).
  - intros _. discriminate.
  - simpl. lia.
Defined.

(** X29.  The size of the [getpwent_r] buffer.  For a [size_t] of at
    least 16 bits and any result of [sysconf], a [long] of the same
    width, the size is at most 16 KiB; the error result -1, like every negative value, gives
    exactly 16 KiB, and a value up to 16 KiB is taken as it is. *)
Theorem getpw_r_bufsize_clamped size_bits sysconf :
  16 <= size_bits ->
  - 2 ^ (size_bits - 1) <= sysconf < 2 ^ (size_bits - 1) ->
  0 <= getpw_r_bufsize size_bits sysconf <= MAX_GETPW_R_BUF_SIZE /\
  (sysconf < 0 -> getpw_r_bufsize size_bits sysconf = MAX_GETPW_R_BUF_SIZE) /\
  (0 <= sysconf <= MAX_GETPW_R_BUF_SIZE -> getpw_r_bufsize size_bits sysconf = sysconf).
Proof.
  intros Hbits Hrange. unfold getpw_r_bufsize, MAX_GETPW_R_BUF_SIZE.
  assert (Hpow : 2 ^ size_bits = 2 * 2 ^ (size_bits - 1)).
  { replace size_bits with (Z.succ (size_bits - 1)) at 1 by lia.
    rewrite Z.pow_succ_r by lia. reflexivity. }
  assert (Hbig : 32768 <= 2 ^ (size_bits - 1)).
  { change 32768 with (2 ^ 15). apply Z.pow_le_mono_r; lia. }
  destruct (Z.neg_nonneg_cases sysconf) as [Hneg|Hpos].
  - replace (sysconf mod 2 ^ size_bits) with (sysconf + 2 ^ size_bits).
    2:{ symmetry. replace sysconf with (sysconf + 2 ^ size_bits + (-1) * 2 ^ size_bits) at 1 by lia.
        rewrite Z.mod_add by lia. apply Z.mod_small. lia. }
    destruct (Z.ltb_spec (16 * 1024) (sysconf + 2 ^ size_bits)); lia.
  - rewrite Z.mod_small by lia.
    destruct (Z.ltb_spec (16 * 1024) sysconf); lia.
Qed.

Lemma getpw_r_bufsize_clamped_witness :
  0 <= getpw_r_bufsize 64 (-1) <= MAX_GETPW_R_BUF_SIZE /\
  (-1 < 0 -> getpw_r_bufsize 64 (-1) = MAX_GETPW_R_BUF_SIZE) /\
  (0 <= -1 <= MAX_GETPW_R_BUF_SIZE -> getpw_r_bufsize 64 (-1) = -1).
Proof.
  apply (getpw_r_bufsize_clamped 64 (-1)).
  - lia.
  - simpl. lia.
Defined.
